(** * playwright-server: the event log and the interception rule engine

    A shallow embedding of two classes of the server,
    [ActivityRecorder] (the event log together with its network and page
    signal handlers) and [InterceptManager] (the interception rule
    engine), and the properties of them that the design document states.

    Conventions of the embedding.
    - A JavaScript [number] that the code only uses as an integer counter,
      a length or a millisecond clock reading is a [Z]; counters are
      assumed to stay inside the safe-integer range, where [++] is exact.
    - [Date.now()] is an input: every handler takes the clock readings it
      makes, in the order it makes them.
    - An optional field ([x?: T]) is an [option T]; JavaScript truthiness
      ([a || b], [a && b], [if (a)]) is written out for each type.
    - A [Map] whose iteration order matters is an association list in
      insertion order; a [Map] or object used as a dictionary only is a
      [gmap].
    - The built-ins [RegExp], [URL] and [fetch] are parameters. *)

From stdpp Require Import base option list strings gmap fin_maps pretty sorting.
From Stdlib Require Import ZArith Lia Ascii.

Local Open Scope Z_scope.

(** ** JavaScript primitives used by both classes *)

Module Js.

(** A completion of a synchronous call: a value, or a thrown error
    (rendered as the text [String(error)] gives). *)
Inductive Completion (A : Type) : Type :=
| Normal (a : A)
| Throws (error : string).
Arguments Normal {A} a.
Arguments Throws {A} error.

(** Truthiness of an optional string: [undefined] and [''] are falsy. *)
Definition truthy_string (o : option string) : option string :=
  match o with
  | Some s => if decide (s = EmptyString) then None else Some s
  | None => None
  end.

(** Truthiness of an optional number: [undefined] and [0] are falsy. *)
Definition truthy_number (o : option Z) : option Z :=
  match o with
  | Some n => if decide (n = 0) then None else Some n
  | None => None
  end.

(** Truthiness of an optional boolean. *)
Definition truthy_bool (o : option bool) : bool :=
  match o with
  | Some b => b
  | None => false
  end.

(** [a ?? b] *)
Definition nullish {A : Type} (o : option A) (d : A) : A :=
  match o with
  | Some a => a
  | None => d
  end.

(** [Array.prototype.slice(start, end)] on integer arguments: a negative
    index counts from the end, both are clamped to the array. *)
Definition slice_index (len i : Z) : Z :=
  if i <? 0 then Z.max (len + i) 0 else Z.min i len.

Definition slice {A : Type} (start : Z) (stop : option Z) (l : list A) : list A :=
  let len := Z.of_nat (length l) in
  let from := slice_index len start in
  let to := match stop with
            | Some e => slice_index len e
            | None => len
            end in
  take (Z.to_nat (to - from)) (drop (Z.to_nat from) l).

(** [String.prototype.toUpperCase] and [toLowerCase] on ASCII text
    (method names and header names are ASCII tokens). *)
Definition upper_ascii (c : ascii) : ascii :=
  let n := nat_of_ascii c in
  if (Nat.leb 97 n && Nat.leb n 122)%bool then ascii_of_nat (n - 32) else c.

Definition lower_ascii (c : ascii) : ascii :=
  let n := nat_of_ascii c in
  if (Nat.leb 65 n && Nat.leb n 90)%bool then ascii_of_nat (n + 32) else c.

Fixpoint map_string (f : ascii -> ascii) (s : string) : string :=
  match s with
  | EmptyString => EmptyString
  | String c s' => String (f c) (map_string f s')
  end.

Definition toUpperCase : string -> string := map_string upper_ascii.
Definition toLowerCase : string -> string := map_string lower_ascii.

(** A [Map<string, V>] in insertion order. [set] on a key already
    present overwrites the value in place; on a new key it appends. *)
Section OrderedMap.
Context {V : Type}.

Definition OMap : Type := list (string * V).

Fixpoint map_get (k : string) (m : OMap) : option V :=
  match m with
  | [] => None
  | (k', v) :: m' => if decide (k' = k) then Some v else map_get k m'
  end.

Definition map_has (k : string) (m : OMap) : bool :=
  match map_get k m with
  | Some _ => true
  | None => false
  end.

Fixpoint map_set (k : string) (v : V) (m : OMap) : OMap :=
  match m with
  | [] => [(k, v)]
  | (k', v') :: m' =>
      if decide (k' = k) then (k', v) :: m' else (k', v') :: map_set k v m'
  end.

Fixpoint map_remove (k : string) (m : OMap) : OMap :=
  match m with
  | [] => []
  | (k', v') :: m' =>
      if decide (k' = k) then m' else (k', v') :: map_remove k m'
  end.

(** [Map.prototype.delete]: the new map and whether the key was there. *)
Definition map_delete (k : string) (m : OMap) : OMap * bool :=
  (map_remove k m, map_has k m).

Definition map_values (m : OMap) : list V := m.*2.
Definition map_size (m : OMap) : Z := Z.of_nat (length m).
End OrderedMap.
Arguments OMap V : clear implicits.

End Js.

Export Js.

(** ** The event log: [ActivityRecorder] *)

Module Recorder.

Definition MAX_ENTRIES : Z := 10000.

Inductive ActivityType : Type :=
| network_request
| network_response
| network_failed
| console
| page_error
| navigation
| dialog
| download.

#[global] Instance ActivityType_eq_dec : EqDecision ActivityType.
Proof. solve_decision. Defined.

Inductive NavigationEvent : Type :=
| load
| domcontentloaded
| framenavigated.

Abbreviation Headers := (gmap string string).

(** The [data] field of an entry: one variant per object literal the
    handlers build. *)
Inductive ActivityData : Type :=
| RequestData (method url resourceType : string) (headers : Headers)
    (postData : option string)
| ResponseData (method url resourceType : string) (status : Z)
    (statusText : string) (headers : Headers) (duration : option Z)
    (responseBody : option string)
| FailedData (method url resourceType : string) (failure : option string)
| ConsoleData (messageType text : string)
    (location : option (string * Z * Z))
| PageErrorData (message : string) (stack : option string)
| NavigationData (url : string) (eventType : NavigationEvent)
| DialogData (dialogType message : string) (defaultValue : option string)
    (handled : bool).

Record ActivityEntry : Type := mkEntry {
  entry_id : Z;
  entry_timestamp : Z;
  entry_type : ActivityType;
  entry_data : ActivityData
}.

(** The fields of the class. *)
Record ActivityRecorder : Type := mkRecorder {
  entries : list ActivityEntry;
  nextId : Z;
  enabled : bool;
  autoStart : bool;
  captureNetworkBodies : bool;
  requestTimings : gmap string Z
}.

Definition init : ActivityRecorder :=
  {| entries := []; nextId := 1; enabled := false; autoStart := true;
     captureNetworkBodies := false; requestTimings := ∅ |}.

(** What the handlers read from Playwright's objects. *)
Record Request : Type := mkRequest {
  req_url : string;
  req_method : string;
  req_resourceType : string;
  req_headers : Headers;
  req_postData : option string;
  req_failure : option string
}.

Record Response : Type := mkResponse {
  resp_request : Request;
  resp_url : string;
  resp_status : Z;
  resp_statusText : string;
  resp_headers : Headers
}.

Record ConsoleMessage : Type := mkConsoleMessage {
  msg_type : string;
  msg_text : string;
  msg_location_url : option string;
  msg_lineNumber : Z;
  msg_columnNumber : Z
}.

Record Dialog : Type := mkDialog {
  dlg_type : string;
  dlg_message : string;
  dlg_defaultValue : option string
}.

(** [attach]: the [page.on] registrations make the handlers below
    reachable; on the recorder itself only the auto-start acts. *)
Definition attach (s : ActivityRecorder) : ActivityRecorder :=
  if autoStart s
  then {| entries := entries s; nextId := nextId s; enabled := true;
          autoStart := autoStart s;
          captureNetworkBodies := captureNetworkBodies s;
          requestTimings := requestTimings s |}
  else s.

(** [addEntry]. The call returns nothing; next to the new state the
    embedding hands back the entry object the call built ([None] on the
    early return), so that the id it was given can be talked about. *)
Definition addEntry (now : Z) (type : ActivityType) (data : ActivityData)
    (s : ActivityRecorder) : ActivityRecorder * option ActivityEntry :=
  if negb (enabled s) then (s, None)
  else
    let entry := {| entry_id := nextId s; entry_timestamp := now;
                    entry_type := type; entry_data := data |} in
    let pushed := entries s ++ [entry] in
    let kept := if Z.of_nat (length pushed) >? MAX_ENTRIES
                then slice (- MAX_ENTRIES) None pushed
                else pushed in
    ({| entries := kept; nextId := nextId s + 1; enabled := enabled s;
        autoStart := autoStart s;
        captureNetworkBodies := captureNetworkBodies s;
        requestTimings := requestTimings s |}, Some entry).

Definition timing_key (r : Request) : string := req_url r +:+ req_method r.

(** [handleRequest]: [t_start] is the clock read for the timing table,
    [now] the one read inside [addEntry]. *)
Definition handleRequest (request : Request) (t_start now : Z)
    (s : ActivityRecorder) : ActivityRecorder * option ActivityEntry :=
  let key := timing_key request in
  let s1 := {| entries := entries s; nextId := nextId s;
               enabled := enabled s; autoStart := autoStart s;
               captureNetworkBodies := captureNetworkBodies s;
               requestTimings := <[key := t_start]> (requestTimings s) |} in
  addEntry now network_request
    (RequestData (req_method request) (req_url request)
       (req_resourceType request) (req_headers request)
       (truthy_string (req_postData request)))
    s1.

(** [handleResponse], up to its only suspension point: [None] is the
    early return, otherwise the duration computed from the timing
    table ([t_end] is the clock read there). *)
Definition handleResponse_duration (response : Response) (t_end : Z)
    (s : ActivityRecorder) : option (option Z) :=
  if negb (enabled s) then None
  else
    let key := timing_key (resp_request response) in
    let startTime := requestTimings s !! key in
    Some (match truthy_number startTime with
          | Some t0 => Some (t_end - t0)
          | None => None
          end).

(** The rest of [handleResponse], run when the body capture (if any)
    has settled; [responseBody] is its outcome. *)
Definition handleResponse_record (response : Response) (duration : option Z)
    (responseBody : option string) (now : Z) (s : ActivityRecorder)
    : ActivityRecorder * option ActivityEntry :=
  let request := resp_request response in
  addEntry now network_response
    (ResponseData (req_method request) (resp_url response)
       (req_resourceType request) (resp_status response)
       (resp_statusText response) (resp_headers response)
       duration responseBody)
    s.

(** [handleResponse] when nothing else runs during the body capture
    (always so when [captureNetworkBodies] is off: there is then no
    [await]). [captured] is what [captureResponseBody] resolves to. *)
Definition handleResponse (response : Response) (t_end now : Z)
    (captured : string) (s : ActivityRecorder)
    : ActivityRecorder * option ActivityEntry :=
  match handleResponse_duration response t_end s with
  | None => (s, None)
  | Some duration =>
      let responseBody :=
        if captureNetworkBodies s then Some captured else None in
      handleResponse_record response duration responseBody now s
  end.

Definition handleRequestFailed (request : Request) (now : Z)
    (s : ActivityRecorder) : ActivityRecorder * option ActivityEntry :=
  addEntry now network_failed
    (FailedData (req_method request) (req_url request)
       (req_resourceType request) (req_failure request))
    s.

Definition handleConsole (msg : ConsoleMessage) (now : Z)
    (s : ActivityRecorder) : ActivityRecorder * option ActivityEntry :=
  let location :=
    match truthy_string (msg_location_url msg) with
    | Some u => Some (u, msg_lineNumber msg, msg_columnNumber msg)
    | None => None
    end in
  addEntry now console (ConsoleData (msg_type msg) (msg_text msg) location) s.

Definition handlePageError (message : string) (stack : option string)
    (now : Z) (s : ActivityRecorder)
    : ActivityRecorder * option ActivityEntry :=
  addEntry now page_error (PageErrorData message stack) s.

Definition handleNavigation (page_url : string) (eventType : NavigationEvent)
    (now : Z) (s : ActivityRecorder)
    : ActivityRecorder * option ActivityEntry :=
  addEntry now navigation (NavigationData page_url eventType) s.

(** [handleDialog]: the entry is added before the dismissal is awaited. *)
Definition handleDialog (d : Dialog) (now : Z) (s : ActivityRecorder)
    : ActivityRecorder * option ActivityEntry :=
  addEntry now dialog
    (DialogData (dlg_type d) (dlg_message d)
       (truthy_string (dlg_defaultValue d)) false)
    s.

(** *** Control methods *)

Definition start (opt_captureNetworkBodies : option bool)
    (s : ActivityRecorder) : ActivityRecorder :=
  {| entries := entries s; nextId := nextId s; enabled := true;
     autoStart := autoStart s;
     captureNetworkBodies := nullish opt_captureNetworkBodies false;
     requestTimings := requestTimings s |}.

Definition stop (s : ActivityRecorder) : ActivityRecorder * Z :=
  ({| entries := entries s; nextId := nextId s; enabled := false;
      autoStart := autoStart s;
      captureNetworkBodies := captureNetworkBodies s;
      requestTimings := requestTimings s |},
   Z.of_nat (length (entries s))).

Definition clear (s : ActivityRecorder) : ActivityRecorder * Z :=
  ({| entries := []; nextId := nextId s; enabled := enabled s;
      autoStart := autoStart s;
      captureNetworkBodies := captureNetworkBodies s;
      requestTimings := ∅ |},
   Z.of_nat (length (entries s))).

Definition setAutoStart (b : bool) (s : ActivityRecorder) : ActivityRecorder :=
  {| entries := entries s; nextId := nextId s; enabled := enabled s;
     autoStart := b; captureNetworkBodies := captureNetworkBodies s;
     requestTimings := requestTimings s |}.

(** *** Query methods *)

Record RecordingState : Type := mkRecordingState {
  rs_enabled : bool;
  rs_autoStart : bool;
  rs_captureNetworkBodies : bool;
  rs_entryCount : Z;
  rs_watermark : Z
}.

Definition getState (s : ActivityRecorder) : RecordingState :=
  {| rs_enabled := enabled s; rs_autoStart := autoStart s;
     rs_captureNetworkBodies := captureNetworkBodies s;
     rs_entryCount := Z.of_nat (length (entries s));
     rs_watermark := nextId s - 1 |}.

Record ActivityFilter : Type := mkFilter {
  f_types : option (list ActivityType);
  f_since : option Z;
  f_limit : option Z
}.

Record EntriesResult : Type := mkEntriesResult {
  r_entries : list ActivityEntry;
  r_watermark : Z;
  r_hasMore : bool
}.

Definition getEntries (f : ActivityFilter) (s : ActivityRecorder)
    : EntriesResult :=
  let filtered := entries s in
  let filtered :=
    match f_since f with
    | Some since => filter (λ e, entry_id e > since) filtered
    | None => filtered
    end in
  let filtered :=
    match f_types f with
    | Some (t :: ts) => filter (λ e, entry_type e ∈ t :: ts) filtered
    | _ => filtered
    end in
  let limit := nullish (f_limit f) 1000 in
  let hasMore := Z.of_nat (length filtered) >? limit in
  let filtered := slice 0 (Some limit) filtered in
  {| r_entries := filtered; r_watermark := nextId s - 1;
     r_hasMore := hasMore |}.

(** The filter [{ since }]: no kinds, default limit. *)
Definition since_only (since : Z) : ActivityFilter :=
  {| f_types := None; f_since := Some since; f_limit := None |}.

(** [getSummary]: the fold of the loop over the entries. *)
Record ActivitySummary : Type := mkSummary {
  sum_totalEntries : Z;
  sum_currentWatermark : Z;
  sum_byType : list (ActivityType * Z);
  sum_oldestTimestamp : option Z;
  sum_newestTimestamp : option Z
}.

Fixpoint count_type (t : ActivityType) (by_type : list (ActivityType * Z))
    : list (ActivityType * Z) :=
  match by_type with
  | [] => [(t, 1)]
  | (t', n) :: rest =>
      if decide (t' = t) then (t', n + 1) :: rest
      else (t', n) :: count_type t rest
  end.

Definition summary_step
    (acc : list (ActivityType * Z) * option Z * option Z)
    (e : ActivityEntry) : list (ActivityType * Z) * option Z * option Z :=
  let '(by_type, oldest, newest) := acc in
  (count_type (entry_type e) by_type,
   match oldest with
   | Some o => if entry_timestamp e <? o then Some (entry_timestamp e)
               else Some o
   | None => Some (entry_timestamp e)
   end,
   match newest with
   | Some n => if entry_timestamp e >? n then Some (entry_timestamp e)
               else Some n
   | None => Some (entry_timestamp e)
   end).

Definition getSummary (s : ActivityRecorder) : ActivitySummary :=
  let '(by_type, oldest, newest) :=
    fold_left summary_step (entries s) ([], None, None) in
  {| sum_totalEntries := Z.of_nat (length (entries s));
     sum_currentWatermark := nextId s - 1;
     sum_byType := by_type;
     sum_oldestTimestamp := oldest;
     sum_newestTimestamp := newest |}.

(** *** Sequences of operations

    Everything that can act on a recorder: the signal handlers that
    [attach] registers, the late half of a suspended [handleResponse],
    and the public methods. *)
Inductive Op : Type :=
| OpAttach
| OpRequest (request : Request) (t_start now : Z)
| OpResponse (response : Response) (t_end now : Z) (captured : string)
| OpResponseResume (response : Response) (duration : option Z)
    (responseBody : option string) (now : Z)
| OpRequestFailed (request : Request) (now : Z)
| OpConsole (msg : ConsoleMessage) (now : Z)
| OpPageError (message : string) (stack : option string) (now : Z)
| OpNavigation (page_url : string) (eventType : NavigationEvent) (now : Z)
| OpDialog (d : Dialog) (now : Z)
| OpStart (opt_captureNetworkBodies : option bool)
| OpStop
| OpClear
| OpSetAutoStart (b : bool).

Definition step (o : Op) (s : ActivityRecorder)
    : ActivityRecorder * option ActivityEntry :=
  match o with
  | OpAttach => (attach s, None)
  | OpRequest r t now => handleRequest r t now s
  | OpResponse r t now c => handleResponse r t now c s
  | OpResponseResume r d b now => handleResponse_record r d b now s
  | OpRequestFailed r now => handleRequestFailed r now s
  | OpConsole m now => handleConsole m now s
  | OpPageError m st now => handlePageError m st now s
  | OpNavigation u e now => handleNavigation u e now s
  | OpDialog d now => handleDialog d now s
  | OpStart c => (start c s, None)
  | OpStop => ((stop s).1, None)
  | OpClear => ((clear s).1, None)
  | OpSetAutoStart b => (setAutoStart b s, None)
  end.

(** The state after a sequence of operations, and the entries the
    sequence created, in order of creation. *)
Fixpoint run (ops : list Op) (s : ActivityRecorder)
    : ActivityRecorder * list ActivityEntry :=
  match ops with
  | [] => (s, [])
  | o :: ops' =>
      let '(s1, created) := step o s in
      let '(s2, rest) := run ops' s1 in
      (s2, option_list created ++ rest)
  end.

(** *** Notions used to state the polling contract *)

(** The union of two entry lists with duplicates (by id) removed: an
    entry is kept the first time its id is met. *)
Fixpoint dedup_from (seen : list Z) (l : list ActivityEntry)
    : list ActivityEntry :=
  match l with
  | [] => []
  | e :: l' =>
      if decide (entry_id e ∈ seen) then dedup_from seen l'
      else e :: dedup_from (entry_id e :: seen) l'
  end.

Definition union_by_id (a b : list ActivityEntry) : list ActivityEntry :=
  dedup_from [] (a ++ b).

(** An operation evicts when it records into a log that is at the cap. *)
Definition evicts (o : Op) (s : ActivityRecorder) : bool :=
  match (step o s).2 with
  | Some _ => MAX_ENTRIES <=? Z.of_nat (length (entries s))
  | None => false
  end.

Definition is_clear (o : Op) : bool :=
  match o with
  | OpClear => true
  | _ => false
  end.

(** No operation of the sequence, run from [s], evicts or clears. *)
Fixpoint undisturbed (ops : list Op) (s : ActivityRecorder) : bool :=
  match ops with
  | [] => true
  | o :: ops' =>
      negb (is_clear o) && negb (evicts o s) && undisturbed ops' (step o s).1
  end.

(** *** Notions used to state the bound on the log *)

(** How many of the oldest entries [addEntry] drops from state [s]. *)
Definition evicted (s : ActivityRecorder) : nat :=
  Z.to_nat (Z.of_nat (length (entries s)) + 1 - MAX_ENTRIES).

(** The two shapes of a step that is not [clear]. *)
Inductive grows (s : ActivityRecorder)
  : ActivityRecorder * option ActivityEntry → Prop :=
| grows_keep s' :
    entries s' = entries s → nextId s' = nextId s → grows s (s', None)
| grows_add s' e :
    entry_id e = nextId s →
    entries s' = drop (evicted s) (entries s ++ [e]) →
    nextId s' = nextId s + 1 →
    grows s (s', Some e).

(** The entries of [s] are at most [MAX_ENTRIES] many and their ids are
    consecutive and end at the watermark [nextId s - 1]. *)
Record retained_block (s : ActivityRecorder) : Prop := mkBlock {
  block_cap : Z.of_nat (length (entries s)) ≤ MAX_ENTRIES;
  block_ids :
    entry_id <$> entries s
    = seqZ (nextId s - Z.of_nat (length (entries s)))
        (Z.of_nat (length (entries s)));
  block_pos : 1 ≤ nextId s - Z.of_nat (length (entries s))
}.

(** *** The remaining query methods *)

(** [poll]: the entries since a watermark, at most 5000, and how many
    of each kind there are among them (an object keyed by kind, here
    in the order in which the keys are first set). *)
Record PollResult : Type := mkPoll {
  p_entries : list ActivityEntry;
  p_watermark : Z;
  p_summary : list (ActivityType * Z)
}.

Definition poll (since : Z) (types : option (list ActivityType))
    (s : ActivityRecorder) : PollResult :=
  let r := getEntries {| f_types := types; f_since := Some since;
                         f_limit := Some 5000 |} s in
  {| p_entries := r_entries r;
     p_watermark := r_watermark r;
     p_summary :=
       fold_left (λ summary entry, count_type (entry_type entry) summary)
         (r_entries r) [] |}.

(** Reading a key of such an object. *)
Fixpoint summary_get (t : ActivityType) (summary : list (ActivityType * Z))
    : option Z :=
  match summary with
  | [] => None
  | (t', n) :: rest => if decide (t' = t) then Some n else summary_get t rest
  end.

(** [getQuickStatus] *)
Record QuickStatus : Type := mkQuickStatus {
  qs_newEntries : Z;
  qs_watermark : Z;
  qs_hasConsoleErrors : bool;
  qs_hasPageErrors : bool;
  qs_hasNetworkFailures : bool;
  qs_lastActivityTime : option Z
}.

(** [e.type === 'console' && e.data.messageType === 'error'] *)
Definition is_console_error (e : ActivityEntry) : bool :=
  bool_decide (entry_type e = console)
  && match entry_data e with
     | ConsoleData messageType _ _ => bool_decide (messageType = "error")
     | _ => false
     end.

Definition getQuickStatus (since : option Z) (s : ActivityRecorder)
    : QuickStatus :=
  let es :=
    match since with
    | Some w => filter (λ e, entry_id e > w) (entries s)
    | None => entries s
    end in
  {| qs_newEntries := Z.of_nat (length es);
     qs_watermark := nextId s - 1;
     qs_hasConsoleErrors := existsb is_console_error es;
     qs_hasPageErrors :=
       existsb (λ e, bool_decide (entry_type e = page_error)) es;
     qs_hasNetworkFailures :=
       existsb (λ e, bool_decide (entry_type e = network_failed)) es;
     qs_lastActivityTime := entry_timestamp <$> last es |}.

(** *** Capturing a response body *)

Definition MAX_RESPONSE_BODY_SIZE : Z := 1024 * 1024.

(** [String.prototype.includes] *)
Fixpoint includes (s needle : string) : bool :=
  String.prefix needle s
  || match s with
     | EmptyString => false
     | String _ s' => includes s' needle
     end.

Definition isTextContent (contentType : string) : bool :=
  includes contentType "text"
  || includes contentType "json"
  || includes contentType "javascript"
  || includes contentType "xml".

(** A [Buffer], read at [length] and at [toString('utf-8')]. *)
Record Buffer : Type := mkBuffer {
  buf_length : Z;
  buf_utf8 : string
}.

(** [captureResponseBody]: [body] is what [response.body()] settles
    to, [headers] what [response.headers()] returns. *)
Definition captureResponseBody (body : Completion Buffer) (headers : Headers)
    : string :=
  match body with
  | Throws e => "[failed to capture: " +:+ e +:+ "]"
  | Normal body =>
      if buf_length body >? MAX_RESPONSE_BODY_SIZE
      then "[body too large: " +:+ pretty (buf_length body) +:+ " bytes]"
      else
        let contentType :=
          nullish (truthy_string (headers !! "content-type")) EmptyString in
        if isTextContent contentType then buf_utf8 body
        else "[binary: " +:+ pretty (buf_length body) +:+ " bytes]"
  end.

(** *** Notions used to state what a stopped recorder does *)

(** The operations that are page signals (everything but [attach] and
    the public methods). *)
Definition is_signal (o : Op) : bool :=
  match o with
  | OpRequest _ _ _ | OpResponse _ _ _ _ | OpResponseResume _ _ _ _
  | OpRequestFailed _ _ | OpConsole _ _ | OpPageError _ _ _
  | OpNavigation _ _ _ | OpDialog _ _ => true
  | _ => false
  end.

(** The matching entries of a query, before the limit is applied. *)
Definition matching (f : ActivityFilter) (s : ActivityRecorder)
    : list ActivityEntry :=
  let since_ok :=
    match f_since f with
    | Some since => filter (λ e, entry_id e > since) (entries s)
    | None => entries s
    end in
  match f_types f with
  | Some (t :: ts) => filter (λ e, entry_type e ∈ t :: ts) since_ok
  | _ => since_ok
  end.

End Recorder.

(** ** The interception rule engine: [InterceptManager] *)

Module Intercept.

Abbreviation Headers := (gmap string string).

Record InterceptResponse : Type := mkInterceptResponse {
  ir_status : option Z;
  ir_body : option string;
  ir_headers : option Headers;
  ir_abort : option bool;
  ir_proxyUrl : option string
}.

Record InterceptRule : Type := mkRule {
  rule_id : string;
  rule_urlPattern : string;
  rule_method : option string;
  rule_response : InterceptResponse;
  rule_delay : option Z;
  rule_enabled : bool;
  rule_matchCount : Z
}.

Record AddInterceptRuleOptions : Type := mkOptions {
  opt_id : option string;
  opt_urlPattern : string;
  opt_method : option string;
  opt_response : InterceptResponse;
  opt_delay : option Z;
  opt_enabled : option bool
}.

(** The fields of the class; a page is known by an opaque handle. *)
Record InterceptManager : Type := mkManager {
  rules : OMap InterceptRule;
  enabled : bool;
  nextId : Z;
  attachedPage : option string
}.

Definition init : InterceptManager :=
  {| rules := []; enabled := true; nextId := 1; attachedPage := None |}.

Definition set_rules (m : OMap InterceptRule) (s : InterceptManager)
    : InterceptManager :=
  {| rules := m; enabled := enabled s; nextId := nextId s;
     attachedPage := attachedPage s |}.

(** [matchingRule.matchCount++] *)
Definition count_match (r : InterceptRule) : InterceptRule :=
  {| rule_id := rule_id r; rule_urlPattern := rule_urlPattern r;
     rule_method := rule_method r; rule_response := rule_response r;
     rule_delay := rule_delay r; rule_enabled := rule_enabled r;
     rule_matchCount := rule_matchCount r + 1 |}.

(** [rule.enabled = enabled] *)
Definition set_rule_enabled (b : bool) (r : InterceptRule) : InterceptRule :=
  {| rule_id := rule_id r; rule_urlPattern := rule_urlPattern r;
     rule_method := rule_method r; rule_response := rule_response r;
     rule_delay := rule_delay r; rule_enabled := b;
     rule_matchCount := rule_matchCount r |}.

(** [detach] and [attach]: on the engine itself only the page handle
    changes; the route registration is what makes [handleRoute] run. *)
Definition detach (s : InterceptManager) : InterceptManager :=
  {| rules := rules s; enabled := enabled s; nextId := nextId s;
     attachedPage := None |}.

Definition attach (page : string) (s : InterceptManager) : InterceptManager :=
  {| rules := rules s; enabled := enabled s; nextId := nextId s;
     attachedPage := Some page |}.

(** What a route handler does to the route and to the network, in
    order. [route.continue], [route.abort] and [route.fulfill] are taken
    to succeed. *)
Record FulfillOptions : Type := mkFulfill {
  fo_status : Z;
  fo_headers : option Headers;
  fo_body : string
}.

Inductive RouteEffect : Type :=
| Delay (ms : Z)
| Fetch (url : string)
| RouteContinue
| RouteAbort (errorCode : string)
| RouteFulfill (o : FulfillOptions).

(** A settled [fetch]: the status, the header entries in the order
    [headers.forEach] visits them, and what [text()] settles to. An
    error is carried as the text that [`${error}`] renders. *)
Record UpstreamResponse : Type := mkUpstream {
  up_status : Z;
  up_headers : list (string * string);
  up_text : Completion string
}.

Definition skipped_headers : list string :=
  ["content-encoding"; "transfer-encoding"; "connection"].

(** The [forEach] that copies the upstream headers. *)
Definition copy_headers (hs : list (string * string)) : Headers :=
  fold_left
    (λ proxyHeaders kv,
       if decide (toLowerCase kv.1 ∈ skipped_headers) then proxyHeaders
       else <[kv.1 := kv.2]> proxyHeaders)
    hs ∅.

(** [{ ...a, ...b }]: the entries of [b] overwrite those of [a]. *)
Definition spread (a b : Headers) : Headers := b ∪ a.

(** The value the upstream response gives a header name: that of the
    last entry under the name. *)
Definition upstream_value (name : string) (hs : list (string * string))
    : option string :=
  snd <$> last (filter (λ kv, kv.1 = name) hs).

Definition proxy_error (error : string) : FulfillOptions :=
  {| fo_status := 500; fo_headers := None;
     fo_body := "Proxy error: " +:+ error |}.

Section Engine.
(** [new RegExp(pattern).test(url)]; the constructor throws on a
    pattern that is not a regular expression. *)
Context (RegExp_test : string → string → Completion bool).
(** [new URL(url)], read at [pathname] and [search]. *)
Context (URL_parse : string → Completion (string * string)).

(** [findMatchingRule]: the loop over [this.rules.values()]. A rule
    object is handed back together with the key of the slot that
    holds it, which is what identifies the object in the store. *)
Fixpoint findMatchingRule (m : OMap InterceptRule) (url method : string)
    : Completion (option (string * InterceptRule)) :=
  match m with
  | [] => Normal None
  | (k, rule) :: rest =>
      if negb (rule_enabled rule) then findMatchingRule rest url method
      else
        match RegExp_test (rule_urlPattern rule) url with
        | Throws e => Throws e
        | Normal false => findMatchingRule rest url method
        | Normal true =>
            match truthy_string (rule_method rule) with
            | Some m' =>
                if decide (toUpperCase m' ≠ toUpperCase method)
                then findMatchingRule rest url method
                else Normal (Some (k, rule))
            | None => Normal (Some (k, rule))
            end
        end
  end.

(** The rule a request should be answered by, in the words of the
    design: an enabled rule whose pattern matches the URL and whose
    method, if it has one, is the request's up to letter case. *)
Definition eligible (url method : string) (rule : InterceptRule) : Prop :=
  rule_enabled rule = true
  ∧ RegExp_test (rule_urlPattern rule) url = Normal true
  ∧ match truthy_string (rule_method rule) with
    | Some m => toUpperCase m = toUpperCase method
    | None => True
    end.

(** The winner among the rules [m], in the words of the design: the
    first eligible rule in the order of the map, if there is one. *)
Inductive first_eligible (url method : string) (m : OMap InterceptRule)
  : option (string * InterceptRule) → Prop :=
| first_eligible_some before slot rule after :
    m = before ++ (slot, rule) :: after →
    eligible url method rule →
    Forall (λ kr, ¬ eligible url method kr.2) before →
    first_eligible url method m (Some (slot, rule))
| first_eligible_none :
    Forall (λ kr, ¬ eligible url method kr.2) m →
    first_eligible url method m None.

(** The pattern of every enabled rule is a regular expression (the
    constructor does not throw on it). *)
Definition patterns_compile (url : string) (m : OMap InterceptRule) : bool :=
  forallb
    (λ kr, negb (rule_enabled kr.2)
           || match RegExp_test (rule_urlPattern kr.2) url with
              | Normal _ => true
              | Throws _ => false
              end)
    m.

(** The part of [handleRoute] that follows [matchCount++]. *)
Definition respond (matchingRule : InterceptRule) (url : string)
    (fetch : string → Completion UpstreamResponse) : list RouteEffect :=
  let delayed :=
    match truthy_number (rule_delay matchingRule) with
    | Some d => if d >? 0 then [Delay d] else []
    | None => []
    end in
  let response := rule_response matchingRule in
  delayed ++
  if truthy_bool (ir_abort response) then [RouteAbort "failed"]
  else
    match truthy_string (ir_proxyUrl response) with
    | Some proxyUrl =>
        match URL_parse url with
        | Throws error => [RouteFulfill (proxy_error error)]
        | Normal (pathname, search) =>
            let targetUrl := proxyUrl +:+ pathname +:+ search in
            Fetch targetUrl ::
            match fetch targetUrl with
            | Throws error => [RouteFulfill (proxy_error error)]
            | Normal proxyResponse =>
                match up_text proxyResponse with
                | Throws error => [RouteFulfill (proxy_error error)]
                | Normal proxyBody =>
                    let proxyHeaders :=
                      copy_headers (up_headers proxyResponse) in
                    let finalHeaders :=
                      spread proxyHeaders
                        (default ∅ (ir_headers response)) in
                    [RouteFulfill
                       {| fo_status :=
                            nullish (ir_status response)
                              (up_status proxyResponse);
                          fo_headers := Some finalHeaders;
                          fo_body := proxyBody |}]
                end
            end
        end
    | None =>
        [RouteFulfill
           {| fo_status := nullish (ir_status response) 200;
              fo_headers := Some (nullish (ir_headers response) ∅);
              fo_body := nullish (ir_body response) EmptyString |}]
    end.

(** [handleRoute]: the new state, the effects, and how the promise
    settles. *)
Definition handleRoute (url method : string)
    (fetch : string → Completion UpstreamResponse) (s : InterceptManager)
    : InterceptManager * list RouteEffect * Completion unit :=
  if negb (enabled s) then (s, [RouteContinue], Normal ())
  else
    match findMatchingRule (rules s) url method with
    | Throws e => (s, [], Throws e)
    | Normal None => (s, [RouteContinue], Normal ())
    | Normal (Some (k, rule)) =>
        let matchingRule := count_match rule in
        (set_rules (map_set k matchingRule (rules s)) s,
         respond matchingRule url fetch, Normal ())
    end.
End Engine.

(** [options.id || `rule-${this.nextId++}`]: the id, and the counter
    after the expression is evaluated. *)
Definition choose_id (options : AddInterceptRuleOptions) (s : InterceptManager)
    : string * Z :=
  match truthy_string (opt_id options) with
  | Some id => (id, nextId s)
  | None => ("rule-" +:+ pretty (nextId s), nextId s + 1)
  end.

Definition addRule (options : AddInterceptRuleOptions) (s : InterceptManager)
    : InterceptManager * Completion InterceptRule :=
  let '(id, next) := choose_id options s in
  let s1 := {| rules := rules s; enabled := enabled s; nextId := next;
               attachedPage := attachedPage s |} in
  if map_has id (rules s1)
  then (s1, Throws ("Rule with id '" +:+ id +:+ "' already exists"))
  else
    let rule := {| rule_id := id;
                   rule_urlPattern := opt_urlPattern options;
                   rule_method := opt_method options;
                   rule_response := opt_response options;
                   rule_delay := Some (nullish (opt_delay options) 0);
                   rule_enabled := nullish (opt_enabled options) true;
                   rule_matchCount := 0 |} in
    (set_rules (map_set id rule (rules s1)) s1, Normal rule).

Definition removeRule (id : string) (s : InterceptManager)
    : InterceptManager * bool :=
  let '(m, removed) := map_delete id (rules s) in (set_rules m s, removed).

Definition getRule (id : string) (s : InterceptManager)
    : option InterceptRule := map_get id (rules s).

Definition listRules (s : InterceptManager) : list InterceptRule :=
  map_values (rules s).

Definition clearRules (s : InterceptManager) : InterceptManager * Z :=
  (set_rules [] s, map_size (rules s)).

Definition toggleRule (id : string) (b : bool) (s : InterceptManager)
    : InterceptManager * Completion InterceptRule :=
  match map_get id (rules s) with
  | None => (s, Throws ("Rule with id '" +:+ id +:+ "' not found"))
  | Some rule =>
      let rule' := set_rule_enabled b rule in
      (set_rules (map_set id rule' (rules s)) s, Normal rule')
  end.

Definition setEnabled (b : bool) (s : InterceptManager) : InterceptManager :=
  {| rules := rules s; enabled := b; nextId := nextId s;
     attachedPage := attachedPage s |}.

Record InterceptStatus : Type := mkStatus {
  st_enabled : bool;
  st_ruleCount : Z;
  st_totalMatches : Z
}.

Definition getStatus (s : InterceptManager) : InterceptStatus :=
  {| st_enabled := enabled s;
     st_ruleCount := map_size (rules s);
     st_totalMatches :=
       fold_left (λ sum rule, sum + rule_matchCount rule)
         (map_values (rules s)) 0 |}.

Definition isEnabled (s : InterceptManager) : bool := enabled s.

(** What makes the association list a [Map] of rule objects: no key
    occurs twice, and every rule sits under its own id. *)
Definition well_keyed (s : InterceptManager) : Prop :=
  NoDup (rules s).*1 ∧ Forall (λ kr, kr.1 = rule_id kr.2) (rules s).

(** *** Notions used to state further properties of the engine *)

(** [addRule] for each of the options in turn: the final engine and the
    completions of the calls. *)
Fixpoint addRules (opts : list AddInterceptRuleOptions) (s : InterceptManager)
    : InterceptManager * list (Completion InterceptRule) :=
  match opts with
  | [] => (s, [])
  | o :: opts' =>
      let '(s1, c) := addRule o s in
      let '(s2, cs) := addRules opts' s1 in
      (s2, c :: cs)
  end.

(** The effects that settle a route. *)
Definition settles (e : RouteEffect) : bool :=
  match e with
  | RouteContinue | RouteAbort _ | RouteFulfill _ => true
  | Delay _ | Fetch _ => false
  end.

End Intercept.

(** ** Small stand-ins for the built-ins

    The engine is parametric in [RegExp] and [URL]. The instances below
    cover the fragment the examples use: patterns made of literal
    characters, [.] and a starred character, searched for anywhere in the
    text, and absolute URLs of the form [scheme://host/path?query]. *)

Module Sample.
Import Intercept.

Definition char_matches (c t : ascii) : bool :=
  bool_decide (c = "."%char) || bool_decide (c = t).

Fixpoint match_here (fuel : nat) (pat text : list ascii) : bool :=
  match fuel with
  | O => false
  | S fuel' =>
      match pat with
      | [] => true
      | c :: rest =>
          match rest with
          | star :: rest' =>
              if bool_decide (star = "*"%char)
              then match_here fuel' rest' text
                   || match text with
                      | t :: ts => char_matches c t && match_here fuel' pat ts
                      | [] => false
                      end
              else match text with
                   | t :: ts => char_matches c t && match_here fuel' rest ts
                   | [] => false
                   end
          | [] =>
              match text with
              | t :: ts => char_matches c t && match_here fuel' rest ts
              | [] => false
              end
          end
      end
  end.

Fixpoint match_anywhere (fuel : nat) (pat text : list ascii) : bool :=
  match_here fuel pat text
  || match text with
     | _ :: ts => match_anywhere fuel pat ts
     | [] => false
     end.

(** A pattern with a parenthesis or a leading star is rejected, as an
    unbalanced group or a dangling quantifier would be. *)
Definition RegExp_test (pattern url : string) : Completion bool :=
  let pat := String.list_ascii_of_string pattern in
  let text := String.list_ascii_of_string url in
  if bool_decide ("("%char ∈ pat) || bool_decide (head pat = Some "*"%char)
  then Throws ("SyntaxError: Invalid regular expression: /" +:+ pattern +:+ "/")
  else Normal (match_anywhere (S (length pat + length text)) pat text).

Fixpoint break_at (stops : list ascii) (l : list ascii)
    : list ascii * list ascii :=
  match l with
  | [] => ([], [])
  | c :: l' =>
      if bool_decide (c ∈ stops) then ([], l)
      else let '(a, b) := break_at stops l' in (c :: a, b)
  end.

Fixpoint after_scheme (l : list ascii) : option (list ascii) :=
  match l with
  | c1 :: l1 =>
      match l1 with
      | c2 :: c3 :: rest =>
          if bool_decide (c1 = ":"%char) && bool_decide (c2 = "/"%char)
             && bool_decide (c3 = "/"%char)
          then Some rest
          else after_scheme l1
      | _ => None
      end
  | [] => None
  end.

Definition URL_parse (url : string) : Completion (string * string) :=
  match after_scheme (String.list_ascii_of_string url) with
  | None => Throws "TypeError: Invalid URL"
  | Some rest =>
      let '(_, from_path) := break_at ["/"; "?"; "#"]%char rest in
      let '(path, from_query) := break_at ["?"; "#"]%char from_path in
      let '(query, _) := break_at ["#"]%char from_query in
      Normal (match path with
              | [] => "/"
              | _ => String.string_of_list_ascii path
              end,
              match query with
              | [_] => EmptyString
              | _ => String.string_of_list_ascii query
              end)
  end.

(** Sample rules, engines and upstream servers. *)
Definition stub (body : string) : InterceptResponse :=
  {| ir_status := None; ir_body := Some body; ir_headers := None;
     ir_abort := None; ir_proxyUrl := None |}.

Definition catch_all : AddInterceptRuleOptions :=
  {| opt_id := Some "a"; opt_urlPattern := ".*"; opt_method := None;
     opt_response := stub "a"; opt_delay := None; opt_enabled := Some true |}.

Definition api_only : AddInterceptRuleOptions :=
  {| opt_id := Some "b"; opt_urlPattern := "/api/.*"; opt_method := None;
     opt_response := stub "b"; opt_delay := None; opt_enabled := Some true |}.

Definition named_rule_1 : AddInterceptRuleOptions :=
  {| opt_id := Some "rule-1"; opt_urlPattern := "/img/.*"; opt_method := None;
     opt_response := stub "img"; opt_delay := None; opt_enabled := None |}.

Definition unnamed : AddInterceptRuleOptions :=
  {| opt_id := None; opt_urlPattern := "/css/.*"; opt_method := None;
     opt_response := stub "css"; opt_delay := None; opt_enabled := None |}.

Definition to_localhost : AddInterceptRuleOptions :=
  {| opt_id := Some "p"; opt_urlPattern := "/vim-os"; opt_method := Some "get";
     opt_response :=
       {| ir_status := None; ir_body := None;
          ir_headers := Some {[ "x-proxied" := "1" ]};
          ir_abort := None; ir_proxyUrl := Some "http://localhost:9000" |};
     opt_delay := Some 50; opt_enabled := None |}.

(** The rule object that [addRule to_localhost] creates. *)
Definition localhost_rule : InterceptRule :=
  {| rule_id := "p"; rule_urlPattern := "/vim-os"; rule_method := Some "get";
     rule_response := opt_response to_localhost; rule_delay := Some 50;
     rule_enabled := true; rule_matchCount := 0 |}.

Definition api_users : string := "https://app.test/api/users".
Definition vim_os : string := "https://connect.test/vim-os?x=1".

(** The engine after [addRule] of the catch-all rule, then of the
    narrower one. *)
Definition two_rules : InterceptManager :=
  (addRule api_only (addRule catch_all init).1).1.

Definition with_proxy : InterceptManager := (addRule to_localhost init).1.

Definition upstream_up (url : string) : Completion UpstreamResponse :=
  Normal {| up_status := 201;
            up_headers := [("content-type", "text/html");
                           ("connection", "keep-alive")];
            up_text := Normal "<html></html>" |}.

Definition upstream_down (url : string) : Completion UpstreamResponse :=
  Throws "TypeError: fetch failed".

(** Sample signals and recorders. *)
Definition get_x : Recorder.Request :=
  {| Recorder.req_url := "https://app.test/x"; Recorder.req_method := "GET";
     Recorder.req_resourceType := "fetch"; Recorder.req_headers := ∅;
     Recorder.req_postData := None; Recorder.req_failure := None |}.

Definition get_x_response : Recorder.Response :=
  {| Recorder.resp_request := get_x; Recorder.resp_url := "https://app.test/x";
     Recorder.resp_status := 200; Recorder.resp_statusText := "OK";
     Recorder.resp_headers := ∅ |}.

Definition hello : Recorder.ConsoleMessage :=
  {| Recorder.msg_type := "log"; Recorder.msg_text := "hello";
     Recorder.msg_location_url := None; Recorder.msg_lineNumber := 0;
     Recorder.msg_columnNumber := 0 |}.

(** A recorder on a freshly attached page, and one stopped after that. *)
Definition recording : Recorder.ActivityRecorder := Recorder.attach Recorder.init.

Definition stopped : Recorder.ActivityRecorder :=
  (Recorder.stop (Recorder.attach Recorder.init)).1.

(** Attaching a page and then [n] console messages. *)
Definition console_burst (n : nat) : list Recorder.Op :=
  Recorder.OpAttach :: replicate n (Recorder.OpConsole hello 5).

(** A rule that aborts although it also names a proxy, and the engine
    holding it. *)
Definition abort_and_proxy : AddInterceptRuleOptions :=
  {| opt_id := Some "block"; opt_urlPattern := "/api/.*"; opt_method := None;
     opt_response :=
       {| ir_status := None; ir_body := None; ir_headers := None;
          ir_abort := Some true; ir_proxyUrl := Some "http://localhost:9000" |};
     opt_delay := None; opt_enabled := None |}.

Definition blocking_rule : InterceptRule :=
  {| rule_id := "block"; rule_urlPattern := "/api/.*"; rule_method := None;
     rule_response := opt_response abort_and_proxy; rule_delay := Some 0;
     rule_enabled := true; rule_matchCount := 0 |}.

Definition with_block : InterceptManager := (addRule abort_and_proxy init).1.

End Sample.

(** ** Managed files: [FileManager] and [ScriptManager]

    The file system is a map from paths of files to their contents.
    [path.join] is a parameter; the [fs] calls are taken to succeed on
    the paths the manager builds. *)

Module Files.

(** [String.prototype.endsWith]: some tail of [s] is [suffix]. *)
Fixpoint endsWith (s suffix : string) : bool :=
  String.eqb s suffix
  || match s with
     | EmptyString => false
     | String _ s' => endsWith s' suffix
     end.

Record FileManager : Type := mkFileManager {
  directory : string;
  extension : string
}.

Record FileResult : Type := mkFileResult {
  fr_filename : string;
  fr_path : string
}.

Abbreviation FileSystem := (gmap string string).

Definition normalizeFilename (fm : FileManager) (name : string) : string :=
  if endsWith name (extension fm) then name else name +:+ extension fm.

Section Manager.
Context (path_join : string → string → string).

Definition getFilepath (fm : FileManager) (name : string) : string :=
  path_join (directory fm) (normalizeFilename fm name).

(** [exists] *)
Definition file_exists (fm : FileManager) (name : string) (fs : FileSystem)
    : bool :=
  bool_decide (is_Some (fs !! getFilepath fm name)).

(** [list]: [readdir] is what [fs.readdirSync] returns for the
    directory, [None] when the directory does not exist. *)
Definition list_files (fm : FileManager) (readdir : option (list string))
    : list string :=
  match readdir with
  | None => []
  | Some names => filter (λ f, endsWith f (extension fm) = true) names
  end.

(** [delete] *)
Definition delete_file (fm : FileManager) (name : string) (fs : FileSystem)
    : FileSystem * bool :=
  let filepath := getFilepath fm name in
  if bool_decide (is_Some (fs !! filepath))
  then (delete filepath fs, true)
  else (fs, false).

Definition getResult (fm : FileManager) (name : string) : FileResult :=
  let filename := normalizeFilename fm name in
  {| fr_filename := filename; fr_path := path_join (directory fm) filename |}.

Definition getDirectory (fm : FileManager) : string := directory fm.

(** [ScriptManager.save] and [ScriptManager.read] *)
Definition save (fm : FileManager) (name code : string) (fs : FileSystem)
    : FileSystem * FileResult :=
  (<[getFilepath fm name := code]> fs, getResult fm name).

Definition read (fm : FileManager) (name : string) (fs : FileSystem)
    : Completion string :=
  if negb (file_exists fm name fs)
  then Throws ("Script not found: " +:+ name)
  else match fs !! getFilepath fm name with
       | Some code => Normal code
       | None => Throws "ENOENT"
       end.
End Manager.

(** The managers of the server, and a [path.join] for relative names
    without dots. *)
Definition scripts : FileManager :=
  {| directory := "/srv/scripts"; extension := ".ts" |}.

Definition slash_join (dir name : string) : string := dir +:+ "/" +:+ name.

End Files.

(** * Properties of the event log *)

Module RecorderFacts.
Import Recorder.

(** ** [slice] as [take] and [drop] *)

Lemma slice_suffix {A : Type} (n : Z) (l : list A) :
  0 < n → slice (- n) None l = drop (Z.to_nat (Z.of_nat (length l) - n)) l.
Proof.
  intros Hn. unfold slice, slice_index.
  destruct (Z.ltb_spec (- n) 0) as [_|?]; [|lia].
  replace (Z.to_nat (Z.max (Z.of_nat (length l) + - n) 0))
    with (Z.to_nat (Z.of_nat (length l) - n)) by lia.
  apply take_ge. rewrite length_drop. lia.
Qed.

Lemma slice_prefix {A : Type} (limit : Z) (l : list A) :
  0 ≤ limit → slice 0 (Some limit) l = take (Z.to_nat limit) l.
Proof.
  intros Hl. unfold slice, slice_index.
  change (0 <? 0) with false. cbv iota.
  destruct (Z.ltb_spec limit 0) as [?|_]; [lia|].
  replace (Z.min 0 (Z.of_nat (length l))) with 0 by lia.
  change (Z.to_nat 0) with 0%nat. rewrite drop_0.
  destruct (Z.le_ge_cases limit (Z.of_nat (length l))).
  - f_equal. lia.
  - rewrite !take_ge by lia. reflexivity.
Qed.

Lemma drop_seqZ (m n : Z) (k : nat) :
  Z.of_nat k ≤ n → drop k (seqZ m n) = seqZ (m + Z.of_nat k) (n - Z.of_nat k).
Proof.
  intros Hk.
  replace n with (Z.of_nat k + (n - Z.of_nat k)) at 1 by lia.
  rewrite seqZ_app by lia.
  apply drop_app_length'. rewrite length_seqZ. lia.
Qed.

(** ** What one operation does to the entries and to the counter *)

Lemma addEntry_disabled now ty d s :
  enabled s = false → addEntry now ty d s = (s, None).
Proof. intros H. unfold addEntry. rewrite H. reflexivity. Qed.

Lemma addEntry_enabled now ty d s :
  enabled s = true →
  addEntry now ty d s =
    ({| entries := drop (evicted s) (entries s ++ [mkEntry (nextId s) now ty d]);
        nextId := nextId s + 1; enabled := enabled s;
        autoStart := autoStart s;
        captureNetworkBodies := captureNetworkBodies s;
        requestTimings := requestTimings s |},
     Some (mkEntry (nextId s) now ty d)).
Proof.
  intros H. unfold addEntry, evicted. rewrite H. simpl.
  do 2 f_equal.
  rewrite length_app. simpl.
  destruct (Z.gtb_spec (Z.of_nat (length (entries s) + 1)) MAX_ENTRIES) as [Hgt|Hle].
  - rewrite slice_suffix by (unfold MAX_ENTRIES; lia).
    rewrite length_app. simpl. f_equal. lia.
  - replace (Z.to_nat (Z.of_nat (length (entries s)) + 1 - MAX_ENTRIES))
      with 0%nat by lia.
    reflexivity.
Qed.

Lemma addEntry_grows now ty d s0 s :
  entries s0 = entries s → nextId s0 = nextId s →
  grows s (addEntry now ty d s0).
Proof.
  intros He Hn. destruct (enabled s0) eqn:Hen.
  - rewrite addEntry_enabled by done.
    apply grows_add; simpl; unfold evicted; by rewrite ?He, ?Hn.
  - rewrite addEntry_disabled by done. by apply grows_keep.
Qed.

Lemma step_grows o s : is_clear o = false → grows s (step o s).
Proof.
  destruct o; simpl; try discriminate; intros _;
    try (by apply addEntry_grows);
    try (by apply grows_keep).
  - unfold attach. destruct (autoStart s); by apply grows_keep.
  - unfold handleResponse.
    destruct (handleResponse_duration _ _ _); [|by apply grows_keep].
    by apply addEntry_grows.
Qed.

Lemma step_clear s :
  entries (step OpClear s).1 = [] ∧ nextId (step OpClear s).1 = nextId s
  ∧ (step OpClear s).2 = None.
Proof. done. Qed.

(** ** Ids along a run *)

Lemma run_cons o ops s :
  run (o :: ops) s =
    ((run ops (step o s).1).1,
     option_list (step o s).2 ++ (run ops (step o s).1).2).
Proof.
  simpl. destruct (step o s) as [s1 c]. simpl.
  by destruct (run ops s1).
Qed.

Lemma step_counter o s :
  nextId (step o s).1 = nextId s + Z.of_nat (length (option_list (step o s).2))
  ∧ entry_id <$> option_list (step o s).2
    = seqZ (nextId s) (Z.of_nat (length (option_list (step o s).2))).
Proof.
  destruct (is_clear o) eqn:Hc.
  - destruct o; try discriminate. simpl. split; [lia|done].
  - destruct (step_grows o s Hc) as [s' He Hn|s' e Hid He Hn]; simpl.
    + split; [lia|done].
    + split; [lia|]. by rewrite Hid.
Qed.

Lemma run_counter ops s :
  nextId (run ops s).1 = nextId s + Z.of_nat (length (run ops s).2)
  ∧ entry_id <$> (run ops s).2 = seqZ (nextId s) (Z.of_nat (length (run ops s).2)).
Proof.
  revert s. induction ops as [|o ops IH]; intros s.
  - simpl. split; [lia|done].
  - rewrite run_cons. simpl.
    destruct (IH (step o s).1) as [IHn IHi].
    destruct (step_counter o s) as [Hn Hi].
    rewrite length_app, fmap_app, IHn, IHi, Hi, Hn.
    split; [lia|].
    rewrite Nat2Z.inj_add. by rewrite seqZ_app by lia.
Qed.

Lemma last_seqZ (m : Z) (n : nat) :
  default (m - 1) (last (seqZ m (Z.of_nat n))) = m + Z.of_nat n - 1.
Proof.
  destruct n as [|n].
  - simpl. lia.
  - rewrite seqZ_S, last_snoc. simpl. lia.
Qed.

Lemma getSummary_watermark s : sum_currentWatermark (getSummary s) = nextId s - 1.
Proof.
  unfold getSummary.
  by destruct (fold_left summary_step (entries s) ([], None, None)) as [[? ?] ?].
Qed.

(** C1. Along every sequence of operations from the initial recorder,
    the ids given to the entries created are 1, 2, 3, ... in order of
    creation (steps of exactly one, none reused, [clear] included among
    the operations); [clear] empties the entries and keeps the counter;
    and the watermark of [getState], [getEntries] and [getSummary] is the
    last, hence highest, id given, or 0 when none was. *)
Theorem event_ids_sequential (ops : list Op) :
  let s := (run ops init).1 in
  let ids := entry_id <$> (run ops init).2 in
  ids = seqZ 1 (Z.of_nat (length ids))
  ∧ rs_watermark (getState s) = default 0 (last ids)
  ∧ (∀ f, r_watermark (getEntries f s) = default 0 (last ids))
  ∧ sum_currentWatermark (getSummary s) = default 0 (last ids)
  ∧ entries (clear s).1 = []
  ∧ nextId (clear s).1 = nextId s.
Proof.
  intros s ids.
  destruct (run_counter ops init) as [Hn Hi]. simpl in Hn.
  assert (Hids : ids = seqZ 1 (Z.of_nat (length ids))).
  { unfold ids. by rewrite length_fmap. }
  assert (Hw : nextId s - 1 = default 0 (last ids)).
  { rewrite Hids. change 0 with (1 - 1) at 1. rewrite last_seqZ.
    unfold s, ids. rewrite length_fmap. lia. }
  split; [done|]. split; [done|]. split; [done|].
  split; [by rewrite getSummary_watermark|done].
Qed.

(** ** The retained block *)

Lemma init_block : retained_block init.
Proof. split; simpl; unfold MAX_ENTRIES; done || lia. Qed.

Lemma drop_snoc_ids (l : list ActivityEntry) (e : ActivityEntry) (n : Z) (k : nat) :
  entry_id <$> l = seqZ (n - Z.of_nat (length l)) (Z.of_nat (length l)) →
  entry_id e = n →
  (k ≤ length l + 1)%nat →
  entry_id <$> drop k (l ++ [e])
  = seqZ (n + 1 - Z.of_nat (length (drop k (l ++ [e]))))
      (Z.of_nat (length (drop k (l ++ [e])))).
Proof.
  intros Hl He Hk.
  rewrite fmap_drop, fmap_app, Hl, length_drop, length_app. simpl.
  rewrite He.
  replace [n] with [n - Z.of_nat (length l) + Z.of_nat (length l)]
    by (f_equal; lia).
  rewrite <- seqZ_S, drop_seqZ by lia.
  f_equal; lia.
Qed.

Lemma evicted_le s : (evicted s ≤ length (entries s) + 1)%nat.
Proof. unfold evicted, MAX_ENTRIES. lia. Qed.

Lemma grows_block s r : retained_block s → grows s r → retained_block r.1.
Proof.
  intros [Hcap Hids Hpos] [s' He Hn|s' e Hid He Hn]; simpl.
  - split; rewrite ?He, ?Hn; done.
  - pose proof (evicted_le s) as Hk.
    pose proof (drop_snoc_ids _ _ _ _ Hids Hid Hk) as Hd.
    assert (Hlen : length (entries s')
                   = (length (entries s) + 1 - evicted s)%nat).
    { rewrite He, length_drop, length_app. simpl. lia. }
    split.
    + rewrite Hlen. unfold evicted in *. lia.
    + rewrite Hn, He. exact Hd.
    + rewrite Hn, Hlen. unfold evicted in *. lia.
Qed.

Lemma step_block o s : retained_block s → retained_block (step o s).1.
Proof.
  intros Hs. destruct (is_clear o) eqn:Hc.
  - destruct o; try discriminate. destruct Hs as [Hcap Hids Hpos].
    split; simpl; unfold MAX_ENTRIES; try lia.
    by rewrite Z.sub_0_r.
  - eapply grows_block; [done|]. by apply step_grows.
Qed.

Lemma run_block ops s : retained_block s → retained_block (run ops s).1.
Proof.
  revert s. induction ops as [|o ops IH]; intros s Hs; [done|].
  rewrite run_cons. simpl. apply IH. by apply step_block.
Qed.

Lemma reachable_block ops : retained_block (run ops init).1.
Proof. apply run_block, init_block. Qed.

(** C6. In every state reached by a sequence of operations, and again
    after a further [addEntry] (the record operation), at most 10,000
    entries are retained and their ids are the consecutive ids ending at
    the watermark. While recording is enabled [addEntry] appends the new
    entry at the end and, only when the log is already at the cap, drops
    the entry at the front, whatever the kinds involved; while disabled
    it changes nothing. It always returns. *)
Theorem log_bounded_fifo (ops : list Op) (now : Z) (ty : ActivityType)
    (d : ActivityData) :
  let s := (run ops init).1 in
  let r := addEntry now ty d s in
  let e := mkEntry (nextId s) now ty d in
  MAX_ENTRIES = 10000
  ∧ retained_block s
  ∧ retained_block r.1
  ∧ (if enabled s
     then r.2 = Some e
          ∧ last (entries r.1) = Some e
          ∧ entries r.1
            = (if Z.of_nat (length (entries s)) <? MAX_ENTRIES
               then entries s ++ [e]
               else drop 1 (entries s ++ [e]))
     else r = (s, None)).
Proof.
  intros s r e.
  pose proof (reachable_block ops) as Hs. fold s in Hs.
  split; [done|]. split; [done|]. split.
  - eapply grows_block; [exact Hs|]. by apply addEntry_grows.
  - destruct (enabled s) eqn:Hen.
    + unfold r. rewrite addEntry_enabled by done. simpl. fold e.
      assert (Hk : evicted s
                   = if Z.of_nat (length (entries s)) <? MAX_ENTRIES
                     then 0%nat else 1%nat).
      { destruct Hs as [Hcap _ _]. unfold evicted.
        destruct (Z.ltb_spec (Z.of_nat (length (entries s))) MAX_ENTRIES); lia. }
      split; [done|]. rewrite Hk.
      destruct (Z.of_nat (length (entries s)) <? MAX_ENTRIES) eqn:Hlt.
      * rewrite drop_0, last_snoc. done.
      * split; [|done].
        destruct (entries s) as [|x l] eqn:Hl.
        { simpl in Hlt. unfold MAX_ENTRIES in Hlt. discriminate. }
        simpl. rewrite drop_0. apply last_snoc.
    + unfold r. by rewrite addEntry_disabled.
Qed.

(** C10. [attach] turns recording on exactly when the auto-start flag is
    set, which it is initially: the enabled flag afterwards is [true] if
    [autoStart] holds and is unchanged otherwise, so it is never turned
    off; this holds for a recorder that was never started and for one
    that was stopped just before. Nothing else of the recorder changes,
    and [setAutoStart] sets the flag that [attach] reads. *)
Theorem attach_auto_starts (s : ActivityRecorder) (b : bool) :
  autoStart init = true
  ∧ enabled init = false
  ∧ enabled (attach init) = true
  ∧ enabled (attach s) = (if autoStart s then true else enabled s)
  ∧ enabled (attach (stop s).1) = autoStart s
  ∧ implb (enabled s) (enabled (attach s)) = true
  ∧ autoStart (setAutoStart b s) = b
  ∧ enabled (attach (setAutoStart false s)) = enabled s
  ∧ entries (attach s) = entries s
  ∧ nextId (attach s) = nextId s
  ∧ autoStart (attach s) = autoStart s
  ∧ captureNetworkBodies (attach s) = captureNetworkBodies s
  ∧ requestTimings (attach s) = requestTimings s.
Proof.
  unfold attach. simpl.
  destruct (autoStart s) eqn:Ha, (enabled s) eqn:He; simpl;
    rewrite ?Ha, ?He; repeat split; done.
Qed.

(** ** The request-timing table *)

Lemma handleRequest_disabled request t_start now s :
  enabled s = false →
  handleRequest request t_start now s =
    ({| entries := entries s; nextId := nextId s; enabled := enabled s;
        autoStart := autoStart s;
        captureNetworkBodies := captureNetworkBodies s;
        requestTimings := <[timing_key request := t_start]> (requestTimings s) |},
     None).
Proof. intros H. unfold handleRequest. by rewrite addEntry_disabled. Qed.

(** C9 (what the code does). On a recorder that was stopped, and is
    therefore disabled, [handleRequest] uses no id and appends no entry,
    but the table of request start times, empty before, holds the
    request's key afterwards: the start time is stored before the
    enabled flag is looked at. *)
Theorem handleRequest_while_stopped_stores_start_time :
  let r := handleRequest Sample.get_x 1000 1001 Sample.stopped in
  enabled Sample.stopped = false
  ∧ r.2 = None
  ∧ entries r.1 = entries Sample.stopped
  ∧ nextId r.1 = nextId Sample.stopped
  ∧ requestTimings Sample.stopped !! timing_key Sample.get_x = None
  ∧ requestTimings r.1 !! timing_key Sample.get_x = Some 1000.
Proof.
  intros r. unfold r.
  rewrite handleRequest_disabled by reflexivity. simpl.
  repeat split; apply lookup_insert_eq.
Qed.

Lemma handleRequest_stores request t_start now s :
  requestTimings (handleRequest request t_start now s).1 !! timing_key request
  = Some t_start
  ∧ enabled (handleRequest request t_start now s).1 = enabled s
  ∧ captureNetworkBodies (handleRequest request t_start now s).1
    = captureNetworkBodies s.
Proof.
  unfold handleRequest, addEntry. simpl.
  destruct (enabled s) eqn:He; simpl; rewrite ?He; repeat split;
    apply lookup_insert_eq.
Qed.

Lemma addEntry_timings now ty d s :
  requestTimings (addEntry now ty d s).1 = requestTimings s.
Proof. unfold addEntry. by destruct (enabled s). Qed.

(** The response and failure handlers only read the timing table. *)
Lemma handleResponse_timings response t_end now captured s :
  requestTimings (handleResponse response t_end now captured s).1
  = requestTimings s.
Proof.
  unfold handleResponse.
  destruct (handleResponse_duration response t_end s); [|done].
  unfold handleResponse_record. apply addEntry_timings.
Qed.

Lemma handleRequestFailed_timings request now s :
  requestTimings (handleRequestFailed request now s).1 = requestTimings s.
Proof. unfold handleRequestFailed. apply addEntry_timings. Qed.

Lemma handleResponse_duration_stored response t_end t_start s :
  enabled s = true →
  requestTimings s !! timing_key (resp_request response) = Some t_start →
  t_start ≠ 0 →
  handleResponse_duration response t_end s = Some (Some (t_end - t_start)).
Proof.
  intros He Ht Hz. unfold handleResponse_duration. rewrite He, Ht. simpl.
  by destruct (decide (t_start = 0)).
Qed.




(** ** Polling with a watermark *)

Lemma filter_all {A : Type} (P : A → Prop) `{!∀ x, Decision (P x)} (l : list A) :
  Forall P l → filter P l = l.
Proof.
  induction 1 as [|x l Hx _ IH]; [done|].
  by rewrite filter_cons_True, IH.
Qed.

Lemma filter_none {A : Type} (P : A → Prop) `{!∀ x, Decision (P x)} (l : list A) :
  Forall (λ x, ¬ P x) l → filter P l = [].
Proof.
  induction 1 as [|x l Hx _ IH]; [done|].
  by rewrite filter_cons_False.
Qed.

Lemma getEntries_since since s :
  r_entries (getEntries (since_only since) s)
  = take 1000 (filter (λ e, entry_id e > since) (entries s))
  ∧ r_watermark (getEntries (since_only since) s) = nextId s - 1.
Proof.
  unfold getEntries, since_only. simpl.
  split; [|done]. by rewrite slice_prefix.
Qed.

Lemma ids_bounds (l : list ActivityEntry) (m n : Z) :
  entry_id <$> l = seqZ m n →
  Forall (λ e, m ≤ entry_id e < m + n) l.
Proof.
  intros H.
  apply (Forall_fmap entry_id (λ i, m ≤ i < m + n)).
  rewrite H. by apply Forall_seqZ.
Qed.

Lemma dedup_from_nodup (seen : list Z) (l : list ActivityEntry) :
  NoDup (entry_id <$> l) →
  Forall (λ e, entry_id e ∉ seen) l →
  dedup_from seen l = l.
Proof.
  revert seen. induction l as [|e l IH]; intros seen Hnd Hseen; [done|].
  simpl in *. apply NoDup_cons in Hnd as [Hne Hnd].
  apply Forall_cons in Hseen as [He Hseen].
  destruct (decide (entry_id e ∈ seen)); [done|].
  f_equal. apply IH; [done|].
  apply Forall_forall. intros x Hx.
  rewrite elem_of_cons. intros [Heq|Hin].
  - apply Hne. rewrite <- Heq. by apply list_elem_of_fmap_2.
  - by eapply Forall_forall in Hseen.
Qed.

Lemma undisturbed_run ops s :
  undisturbed ops s = true →
  entries (run ops s).1 = entries s ++ (run ops s).2.
Proof.
  revert s. induction ops as [|o ops IH]; intros s Hu.
  - simpl. by rewrite app_nil_r.
  - simpl in Hu. apply andb_prop in Hu as [Hu Hrest].
    apply andb_prop in Hu as [Hc He].
    apply negb_true_iff in Hc, He.
    rewrite run_cons. simpl. rewrite (IH _ Hrest).
    unfold evicts in He.
    destruct (step_grows o s Hc) as [s' Hes Hn|s' e Hid Hes Hn]; simpl in *.
    + by rewrite Hes.
    + rewrite Hes. unfold evicted.
      replace (Z.to_nat (Z.of_nat (length (entries s)) + 1 - MAX_ENTRIES))
        with 0%nat by lia.
      by rewrite drop_0, <- app_assoc.
Qed.

(** The two polls of the contract, for a log that the operations between
    them neither clear nor trim. *)
Lemma two_polls ops1 ops2 :
  let s1 := (run ops1 init).1 in
  let s2 := (run ops2 s1).1 in
  undisturbed ops2 s1 = true →
  filter (λ e, entry_id e > 0) (entries s1) = entries s1
  ∧ filter (λ e, entry_id e > nextId s1 - 1) (entries s2) = (run ops2 s1).2
  ∧ filter (λ e, entry_id e > 0) (entries s2) = entries s2
  ∧ entries s2 = entries s1 ++ (run ops2 s1).2
  ∧ NoDup (entry_id <$> entries s2).
Proof.
  intros s1 s2 Hu.
  pose proof (reachable_block ops1) as B1. fold s1 in B1.
  pose proof (run_block ops2 s1 B1) as B2. fold s2 in B2.
  pose proof (undisturbed_run ops2 s1 Hu) as Happ. fold s2 in Happ.
  destruct (run_counter ops2 s1) as [_ Hnew].
  pose proof (ids_bounds _ _ _ (block_ids _ B1)) as H1.
  pose proof (ids_bounds _ _ _ (block_ids _ B2)) as H2.
  pose proof (ids_bounds _ _ _ Hnew) as H3.
  pose proof (block_pos _ B1) as P1. pose proof (block_pos _ B2) as P2.
  split; [|split; [|split; [|split]]].
  - apply filter_all. eapply Forall_impl; [exact H1|]. simpl. lia.
  - rewrite Happ, filter_app, filter_none, filter_all; [done| |].
    + eapply Forall_impl; [exact H3|]. simpl. lia.
    + eapply Forall_impl; [exact H1|]. simpl. lia.
  - apply filter_all. eapply Forall_impl; [exact H2|]. simpl. lia.
  - done.
  - rewrite (block_ids _ B2). apply NoDup_seqZ.
Qed.

(** When the second poll brings one new entry to a log of 1000, the two
    answers together are longer than any single answer. *)
Lemma two_polls_too_long ops1 ops2 :
  let s1 := (run ops1 init).1 in
  let s2 := (run ops2 s1).1 in
  let q1 := getEntries (since_only 0) s1 in
  let q2 := getEntries (since_only (r_watermark q1)) s2 in
  undisturbed ops2 s1 = true →
  length (entries s1) = 1000%nat →
  length (run ops2 s1).2 = 1%nat →
  length (union_by_id (r_entries q1) (r_entries q2)) = 1001%nat
  ∧ length (r_entries (getEntries (since_only 0) s2)) = 1000%nat.
Proof.
  intros s1 s2 q1 q2 Hu L1 L2.
  destruct (two_polls ops1 ops2 Hu) as (F1 & F2 & F3 & Happ & Hnd).
  fold s1 in F1, F2, F3, Happ, Hnd. fold s2 in F2, F3, Happ, Hnd.
  unfold q2, q1, union_by_id.
  rewrite !(proj1 (getEntries_since _ _)), (proj2 (getEntries_since _ _)).
  rewrite F1, F2, F3.
  rewrite (take_ge (entries s1)), (take_ge (run ops2 s1).2) by lia.
  rewrite <- Happ, dedup_from_nodup.
  - rewrite length_take, Happ, length_app. lia.
  - done.
  - apply Forall_true. intros e. apply not_elem_of_nil.
Qed.

(** C4 (counterexample). A log holding 1000 entries is polled with
    [since = 0]; one more event is recorded (nothing is evicted, the log
    is far below its cap); the log is polled again with the watermark of
    the first poll. The two answers together hold 1001 entries, a single
    [since = 0] query at that time returns 1000. *)
Lemma poll_union_exceeds_default_limit :
  let s1 := (run (Sample.console_burst 1000) init).1 in
  let ops2 := [OpConsole Sample.hello 6] in
  let s2 := (run ops2 s1).1 in
  let q1 := getEntries (since_only 0) s1 in
  let q2 := getEntries (since_only (r_watermark q1)) s2 in
  undisturbed ops2 s1 = true
  ∧ union_by_id (r_entries q1) (r_entries q2)
    ≠ r_entries (getEntries (since_only 0) s2).
Proof.
  intros s1 ops2 s2 q1 q2.
  assert (Hu : undisturbed ops2 s1 = true) by (vm_compute; reflexivity).
  assert (L1 : length (entries s1) = 1000%nat) by (vm_compute; reflexivity).
  assert (L2 : length (run ops2 s1).2 = 1%nat) by (vm_compute; reflexivity).
  split; [exact Hu|].
  destruct (two_polls_too_long (Sample.console_burst 1000) ops2 Hu L1 L2)
    as [Hunion Hsingle].
  intros Heq. apply (f_equal length) in Heq.
  revert Heq. unfold q2, q1, s2, s1. rewrite Hunion, Hsingle. lia.
Qed.

(** C4 (as amended). If no operation between the two polls evicts or
    clears, and the log holds at most 1000 entries (the default limit) at
    the second poll, then the entries of [query(since=0)] followed by
    those of [query(since=watermark_1)], duplicates by id removed, are
    the entries of a single [query(since=0)] made at the time of the
    second poll. *)
Theorem poll_union_within_limit (ops1 ops2 : list Op)
    (Hquiet : undisturbed ops2 (run ops1 init).1 = true)
    (Hlimit : Z.of_nat (length (entries (run ops2 (run ops1 init).1).1)) ≤ 1000) :
  let s1 := (run ops1 init).1 in
  let s2 := (run ops2 s1).1 in
  let q1 := getEntries (since_only 0) s1 in
  let q2 := getEntries (since_only (r_watermark q1)) s2 in
  union_by_id (r_entries q1) (r_entries q2)
  = r_entries (getEntries (since_only 0) s2).
Proof.
  intros s1 s2 q1 q2.
  destruct (two_polls ops1 ops2 Hquiet) as (F1 & F2 & F3 & Happ & Hnd).
  fold s1 in F1, F2, F3, Happ, Hnd, Hlimit.
  fold s2 in F2, F3, Happ, Hnd, Hlimit.
  assert (Hlen : (length (entries s1) + length (run ops2 s1).2 ≤ 1000)%nat).
  { rewrite <- length_app, <- Happ. lia. }
  unfold q2, q1, union_by_id.
  rewrite !(proj1 (getEntries_since _ _)), (proj2 (getEntries_since _ _)).
  rewrite F1, F2, F3.
  rewrite !take_ge by lia.
  rewrite <- Happ.
  apply dedup_from_nodup; [done|].
  apply Forall_true. intros e. apply not_elem_of_nil.
Qed.

Lemma poll_union_within_limit_witness :
  undisturbed [OpConsole Sample.hello 6] (run (Sample.console_burst 3) init).1
  = true
  ∧ (let s1 := (run (Sample.console_burst 3) init).1 in
     let s2 := (run [OpConsole Sample.hello 6] s1).1 in
     union_by_id
       (r_entries (getEntries (since_only 0) s1))
       (r_entries
          (getEntries
             (since_only (r_watermark (getEntries (since_only 0) s1))) s2))
     = r_entries (getEntries (since_only 0) s2)).
Proof.
  split; [reflexivity|].
  apply (poll_union_within_limit (Sample.console_burst 3)
           [OpConsole Sample.hello 6]); [reflexivity|].
  vm_compute. discriminate.
Defined.

(** A [clear] between the two polls: the first answer holds two entries
    that a later [since = 0] query no longer returns. *)
Example poll_union_after_clear :
  let s1 := (run (Sample.console_burst 2) init).1 in
  let s2 := (run [OpClear] s1).1 in
  let q1 := getEntries (since_only 0) s1 in
  let q2 := getEntries (since_only (r_watermark q1)) s2 in
  length (union_by_id (r_entries q1) (r_entries q2)) = 2%nat
  ∧ r_entries (getEntries (since_only 0) s2) = [].
Proof. split; vm_compute; reflexivity. Qed.

End RecorderFacts.

(** * Properties of the interception rule engine *)

Module InterceptFacts.
Import Intercept.

(** ** The ordered map *)

Section OrderedMapFacts.
Context {V : Type}.
Implicit Types (m : OMap V) (k : string) (v : V).

Lemma map_get_set_eq k v m : map_get k (map_set k v m) = Some v.
Proof.
  induction m as [|[k' v'] m IH]; simpl.
  - by destruct (decide (k = k)).
  - destruct (decide (k' = k)) as [->|Hne]; simpl.
    + by destruct (decide (k = k)).
    + by destruct (decide (k' = k)).
Qed.

Lemma map_get_set_ne k k' v m :
  k ≠ k' → map_get k' (map_set k v m) = map_get k' m.
Proof.
  intros Hne. induction m as [|[k0 v0] m IH]; simpl.
  - by destruct (decide (k = k')).
  - destruct (decide (k0 = k)) as [->|Hk]; simpl.
    + by destruct (decide (k = k')).
    + destruct (decide (k0 = k')); [done|apply IH].
Qed.

(** [set] on a key that is not in the map appends: the order of the map
    is the order of insertion. *)
Lemma map_set_fresh k v m : map_has k m = false → map_set k v m = m ++ [(k, v)].
Proof.
  unfold map_has. induction m as [|[k' v'] m IH]; simpl; [done|].
  destruct (decide (k' = k)); [done|]. intros H. by rewrite IH.
Qed.

Lemma map_set_keys k v m : map_has k m = true → (map_set k v m).*1 = m.*1.
Proof.
  unfold map_has. induction m as [|[k' v'] m IH]; simpl; [done|].
  destruct (decide (k' = k)); [done|]. intros H.
  rewrite !fmap_cons. f_equal. by apply IH.
Qed.

Lemma map_has_elem_of k m : map_has k m = true ↔ k ∈ m.*1.
Proof.
  unfold map_has. induction m as [|[k' v'] m IH]; simpl.
  - split; [done|]. by intros ?%elem_of_nil.
  - rewrite elem_of_cons. destruct (decide (k' = k)) as [->|Hne].
    + split; auto.
    + rewrite IH. split; [auto|]. intros [?|?]; [congruence|done].
Qed.

Lemma map_set_NoDup k v m : NoDup m.*1 → NoDup (map_set k v m).*1.
Proof.
  intros Hnd. destruct (map_has k m) eqn:Hh.
  - by rewrite map_set_keys.
  - rewrite map_set_fresh, fmap_app by done. simpl.
    apply NoDup_app. split; [done|]. split; [|apply NoDup_singleton].
    intros x Hx ->%list_elem_of_singleton.
    apply map_has_elem_of in Hx. congruence.
Qed.
Lemma map_set_Forall (P : string * V → Prop) k v m :
  P (k, v) → Forall P m → Forall P (map_set k v m).
Proof.
  intros Hkv. induction 1 as [|[k' v'] m Hx Hm IH]; simpl.
  - by apply Forall_singleton.
  - destruct (decide (k' = k)) as [->|Hne]; apply Forall_cons; auto.
Qed.

Lemma map_remove_elem_of k m kv : kv ∈ map_remove k m → kv ∈ m.
Proof.
  induction m as [|[k' v'] m IH]; simpl; [done|].
  destruct (decide (k' = k)).
  - intros Hin. apply elem_of_cons. by right.
  - rewrite !elem_of_cons. intros [?|?]; auto.
Qed.

Lemma map_remove_NoDup k m : NoDup m.*1 → NoDup (map_remove k m).*1.
Proof.
  induction m as [|[k' v'] m IH]; [done|].
  rewrite fmap_cons, NoDup_cons. intros [Hnotin Hnd]. simpl in Hnotin.
  cbn [map_remove]. destruct (decide (k' = k)); [done|].
  rewrite fmap_cons. apply NoDup_cons. split; [|by apply IH].
  simpl. intros Hin. apply Hnotin.
  apply list_elem_of_fmap in Hin as (kv & -> & Hkv).
  apply list_elem_of_fmap. exists kv. split; [done|].
  by eapply map_remove_elem_of.
Qed.
End OrderedMapFacts.

(** ** Headers *)

Lemma copy_headers_snoc hs kv :
  copy_headers (hs ++ [kv])
  = if decide (toLowerCase kv.1 ∈ skipped_headers) then copy_headers hs
    else <[kv.1 := kv.2]> (copy_headers hs).
Proof. unfold copy_headers. by rewrite fold_left_app. Qed.

Lemma upstream_value_snoc name hs kv :
  upstream_value name (hs ++ [kv])
  = if decide (kv.1 = name) then Some kv.2 else upstream_value name hs.
Proof.
  unfold upstream_value. rewrite filter_app.
  destruct (decide (kv.1 = name)) as [Heq|Hne].
  - rewrite (filter_cons_True _ kv) by done. rewrite filter_nil.
    by rewrite last_snoc.
  - rewrite (filter_cons_False _ kv) by done. rewrite filter_nil.
    by rewrite app_nil_r.
Qed.

(** The copied headers: nothing under a name that lower-cases to one of
    the three skipped names, the upstream value under any other. *)
Lemma copy_headers_lookup hs name :
  copy_headers hs !! name
  = if decide (toLowerCase name ∈ skipped_headers) then None
    else upstream_value name hs.
Proof.
  induction hs as [|kv hs IH] using rev_ind.
  - unfold copy_headers, upstream_value. simpl. rewrite lookup_empty.
    by destruct (decide _).
  - rewrite copy_headers_snoc, upstream_value_snoc.
    destruct (decide (toLowerCase kv.1 ∈ skipped_headers)) as [Hs|Hs].
    + rewrite IH. destruct (decide (toLowerCase name ∈ skipped_headers)); [done|].
      destruct (decide (kv.1 = name)); [congruence|done].
    + rewrite lookup_insert. destruct (decide (kv.1 = name)) as [<-|Hne].
      * by destruct (decide (toLowerCase kv.1 ∈ skipped_headers)).
      * apply IH.
Qed.

Lemma spread_lookup (a b : Headers) name :
  spread a b !! name
  = match b !! name with
    | Some v => Some v
    | None => a !! name
    end.
Proof.
  unfold spread. rewrite lookup_union.
  by destruct (b !! name), (a !! name).
Qed.

(** ** Matching and routing *)

Section EngineFacts.
Context (RegExp_test : string → string → Completion bool).
Context (URL_parse : string → Completion (string * string)).

Local Abbreviation eligible := (eligible RegExp_test).
Local Abbreviation first_eligible := (first_eligible RegExp_test).
Local Abbreviation findMatchingRule := (findMatchingRule RegExp_test).
Local Abbreviation patterns_compile := (patterns_compile RegExp_test).
Local Abbreviation handleRoute := (handleRoute RegExp_test URL_parse).
Local Abbreviation respond := (respond URL_parse).

Lemma first_eligible_skip url method k rule m w :
  ¬ eligible url method rule →
  first_eligible url method m w →
  first_eligible url method ((k, rule) :: m) w.
Proof.
  intros Hne [before slot r after -> He Hb|Hall].
  - apply (first_eligible_some _ _ _ _ ((k, rule) :: before) slot r after);
      [done|done|].
    by apply Forall_cons.
  - apply first_eligible_none. by apply Forall_cons.
Qed.

(** The loop returns, and returns the first eligible rule, when the
    patterns it compiles are regular expressions. *)
Lemma findMatchingRule_first m url method :
  patterns_compile url m = true →
  ∃ w, findMatchingRule m url method = Normal w
       ∧ first_eligible url method m w.
Proof.
  induction m as [|[k rule] m IH]; intros Hc.
  - exists None. split; [done|]. by apply first_eligible_none.
  - simpl in Hc. apply andb_prop in Hc as [Hhead Hc].
    destruct (IH Hc) as (w & Hw & Hfirst). simpl.
    destruct (rule_enabled rule) eqn:Hen; simpl in *.
    + destruct (RegExp_test (rule_urlPattern rule) url) as [[|]|e] eqn:Hre;
        [| |done].
      * destruct (truthy_string (rule_method rule)) as [m'|] eqn:Hm.
        -- destruct (decide (toUpperCase m' ≠ toUpperCase method)) as [Hd|Hd].
           ++ exists w. split; [done|].
              apply first_eligible_skip; [|done].
              intros (_ & _ & Hmeth). rewrite Hm in Hmeth. done.
           ++ exists (Some (k, rule)). split; [done|].
              apply (first_eligible_some _ _ _ _ [] k rule m); [done| |done].
              split; [done|]. split; [done|]. rewrite Hm.
              by destruct (decide (toUpperCase m' = toUpperCase method)).
        -- exists (Some (k, rule)). split; [done|].
           apply (first_eligible_some _ _ _ _ [] k rule m); [done| |done].
           split; [done|]. split; [done|]. by rewrite Hm.
      * exists w. split; [done|].
        apply first_eligible_skip; [|done].
        intros (_ & Hp & _). congruence.
    + exists w. split; [done|].
      apply first_eligible_skip; [|done].
      intros (He & _). congruence.
Qed.

(** An eligible rule shields every rule behind it. *)
Lemma first_eligible_not_behind url method before a behind w :
  eligible url method a.2 →
  first_eligible url method (before ++ a :: behind) w →
  ∃ kr, w = Some kr ∧ kr ∈ before ++ [a].
Proof.
  intros Ha Hw. destruct Hw as [pre slot rule post Hsplit He Hpre|Hall].
  - exists (slot, rule). split; [done|].
    destruct (decide (length pre ≤ length before)%nat) as [Hle|Hgt].
    + assert (H1 : (before ++ a :: behind) !! length pre = Some (slot, rule)).
      { rewrite Hsplit. by rewrite list_lookup_middle. }
      apply list_elem_of_lookup. exists (length pre).
      destruct (decide (length pre = length before)) as [Heq|Hne].
      * rewrite Heq in *. rewrite list_lookup_middle in H1 by done.
        by rewrite list_lookup_middle.
      * rewrite lookup_app_l in H1 by lia. by rewrite lookup_app_l by lia.
    + exfalso.
      assert (H1 : (pre ++ (slot, rule) :: post) !! length before = Some a).
      { rewrite <- Hsplit. by rewrite list_lookup_middle. }
      rewrite lookup_app_l in H1 by lia.
      rewrite Forall_forall in Hpre. apply (Hpre a); [|done].
      apply list_elem_of_lookup. by exists (length before).
  - exfalso. rewrite Forall_forall in Hall. apply (Hall a); [|done].
    apply elem_of_app. right. apply elem_of_cons. by left.
Qed.

Lemma addRule_order options s :
  let r := addRule options s in
  (∃ e, r.2 = Throws e ∧ rules r.1 = rules s)
  ∨ (∃ rule, r.2 = Normal rule
             ∧ rules r.1 = rules s ++ [(rule_id rule, rule)]).
Proof.
  unfold addRule. destruct (choose_id options s) as [id next]. simpl.
  destruct (map_has id (rules s)) eqn:Hhas; simpl.
  - left. by eexists.
  - right. eexists. split; [done|]. simpl. by apply map_set_fresh.
Qed.

(** What [handleRoute] does to the rules. *)
Lemma handleRoute_rules url method fetch s :
  (handleRoute url method fetch s).1.1
  = if enabled s
    then match findMatchingRule (rules s) url method with
         | Normal (Some (slot, rule)) =>
             set_rules (map_set slot (count_match rule) (rules s)) s
         | _ => s
         end
    else s.
Proof.
  unfold Intercept.handleRoute. destruct (enabled s); simpl; [|done].
  by destruct (findMatchingRule (rules s) url method) as [[[slot rule]|]|e].
Qed.

Lemma findMatchingRule_elem_of m url method slot rule :
  findMatchingRule m url method = Normal (Some (slot, rule)) →
  (slot, rule) ∈ m.
Proof.
  induction m as [|[k r] m IH]; simpl; [done|].
  rewrite elem_of_cons.
  destruct (rule_enabled r); simpl; [|by auto].
  destruct (RegExp_test (rule_urlPattern r) url) as [[|]|e]; [|by auto|done].
  destruct (truthy_string (rule_method r)) as [m'|].
  - destruct (decide (toUpperCase m' ≠ toUpperCase method)); [by auto|].
    intros [= <- <-]. by left.
  - intros [= <- <-]. by left.
Qed.

(** The engine's operations keep the rule map a map of rule objects
    keyed by their ids. *)
Lemma well_keyed_preserved (s : InterceptManager) url method fetch options
    id b page :
  well_keyed s →
  well_keyed (handleRoute url method fetch s).1.1
  ∧ well_keyed (addRule options s).1
  ∧ well_keyed (removeRule id s).1
  ∧ well_keyed (toggleRule id b s).1
  ∧ well_keyed (clearRules s).1
  ∧ well_keyed (setEnabled b s)
  ∧ well_keyed (Intercept.attach page s)
  ∧ well_keyed (detach s).
Proof.
  intros [Hnd Hid]. repeat split; simpl; try done.
  - rewrite handleRoute_rules. destruct (enabled s); [|done].
    destruct (findMatchingRule _ _ _) as [[[? ?]|]|?]; simpl;
      [by apply map_set_NoDup|done..].
  - rewrite handleRoute_rules. destruct (enabled s); [|done].
    destruct (findMatchingRule _ _ _) as [[[slot rule]|]|?] eqn:Hf;
      simpl; [|done..].
    apply findMatchingRule_elem_of in Hf.
    pose proof (proj1 (Forall_forall _ _) Hid _ Hf) as Hslot.
    by apply map_set_Forall.
  - unfold addRule. destruct (choose_id options s) as [i n]. simpl.
    destruct (map_has i (rules s)); simpl; [done|by apply map_set_NoDup].
  - unfold addRule. destruct (choose_id options s) as [i n]. simpl.
    destruct (map_has i (rules s)); simpl; [done|].
    by apply map_set_Forall.
  - by apply map_remove_NoDup.
  - apply Forall_forall. intros kv Hkv%map_remove_elem_of.
    rewrite Forall_forall in Hid. by apply Hid.
  - unfold toggleRule. destruct (map_get id (rules s)); simpl;
      [by apply map_set_NoDup|done].
  - unfold toggleRule. destruct (map_get id (rules s)) as [rule|] eqn:Hg;
      simpl; [|done].
    apply map_set_Forall; [|done]. simpl.
    revert Hg. clear Hnd. induction Hid as [|[k r] m Hkr _ IH]; simpl; [done|].
    destruct (decide (k = id)) as [<-|]; [|done]. by intros [= <-].
  - apply NoDup_nil_2.
Qed.


(** C3 (as amended). A rule's [matchCount] goes up by one each time the
    rule is the winning match of a request handled while interception is
    globally enabled, whatever the rule's response is and whatever
    becomes of the upstream fetch, and no other rule changes then. While
    interception is globally disabled the request continues and the
    engine, every [matchCount] included, is left as it was. *)
Theorem matchCount_counts_wins (s : InterceptManager) (url method : string)
    (fetch : string → Completion UpstreamResponse) :
  let r := handleRoute url method fetch s in
  if enabled s
  then match findMatchingRule (rules s) url method with
       | Normal (Some (slot, rule)) =>
           map_get slot (rules r.1.1) = Some (count_match rule)
           ∧ rule_matchCount (count_match rule) = rule_matchCount rule + 1
           ∧ (∀ k, k ≠ slot → map_get k (rules r.1.1) = map_get k (rules s))
           ∧ enabled r.1.1 = enabled s
           ∧ nextId r.1.1 = nextId s
       | _ => r.1.1 = s
       end
  else r = (s, [RouteContinue], Normal ()).
Proof.
  intros r. pose proof (handleRoute_rules url method fetch s) as Hr.
  fold r in Hr. destruct (enabled s) eqn:Hen.
  - destruct (findMatchingRule (rules s) url method) as [[[slot rule]|]|e];
      [|done|done].
    rewrite Hr. simpl. split; [apply map_get_set_eq|]. split; [done|].
    split; [|done]. intros k Hk. by apply map_get_set_ne.
  - unfold r, Intercept.handleRoute. by rewrite Hen.
Qed.

(** C8. A request answered by a rule whose response is a proxy one (no
    abort, a non-empty [proxyUrl]): after the rule's delay, if any, the
    engine fetches the proxy base followed by the path and the query
    string of the request URL, and fulfills with the upstream body, with
    the rule's status if it has one and the upstream status otherwise, and
    with headers that give every name the rule's value if the rule has
    one and otherwise the upstream value, except that nothing is taken
    from upstream under [content-encoding], [transfer-encoding] or
    [connection] (in any letter case). If the URL does not parse, the
    fetch fails or the body cannot be read, the request is fulfilled with
    status 500 and the body [Proxy error: ] followed by the error text.
    In every case the handler's promise resolves. *)
Theorem proxy_rule_resolution (s : InterceptManager) (url method : string)
    (fetch : string → Completion UpstreamResponse)
    (slot : string) (rule : InterceptRule) (proxyUrl : string)
    (Hen : enabled s = true)
    (Hfind : findMatchingRule (rules s) url method = Normal (Some (slot, rule)))
    (Habort : truthy_bool (ir_abort (rule_response rule)) = false)
    (Hproxy : truthy_string (ir_proxyUrl (rule_response rule)) = Some proxyUrl) :
  let r := handleRoute url method fetch s in
  let response := rule_response rule in
  let delayed :=
    match truthy_number (rule_delay rule) with
    | Some d => if d >? 0 then [Delay d] else []
    | None => []
    end in
  let failed error :=
    RouteFulfill {| fo_status := 500; fo_headers := None;
                    fo_body := "Proxy error: " +:+ error |} in
  r.2 = Normal ()
  ∧ match URL_parse url with
    | Throws error => r.1.2 = delayed ++ [failed error]
    | Normal (pathname, search) =>
        let targetUrl := proxyUrl +:+ pathname +:+ search in
        match fetch targetUrl with
        | Throws error => r.1.2 = delayed ++ [Fetch targetUrl; failed error]
        | Normal upstream =>
            match up_text upstream with
            | Throws error =>
                r.1.2 = delayed ++ [Fetch targetUrl; failed error]
            | Normal text =>
                ∃ finalHeaders,
                  r.1.2
                  = delayed
                    ++ [Fetch targetUrl;
                        RouteFulfill
                          {| fo_status :=
                               match ir_status response with
                               | Some status => status
                               | None => up_status upstream
                               end;
                             fo_headers := Some finalHeaders;
                             fo_body := text |}]
                  ∧ ∀ name,
                      finalHeaders !! name
                      = match default ∅ (ir_headers response) !! name with
                        | Some v => Some v
                        | None =>
                            if decide (toLowerCase name
                                       ∈ ["content-encoding";
                                          "transfer-encoding"; "connection"])
                            then None
                            else upstream_value name (up_headers upstream)
                        end
            end
        end
    end.
Proof.
  intros r response delayed failed.
  unfold r, Intercept.handleRoute. rewrite Hen, Hfind.
  cbn [negb fst snd]. split; [done|].
  unfold Intercept.respond.
  change (rule_response (count_match rule)) with (rule_response rule).
  change (rule_delay (count_match rule)) with (rule_delay rule).
  fold delayed. unfold response. rewrite Habort, Hproxy.
  destruct (URL_parse url) as [[pathname search]|error]; [|reflexivity].
  destruct (fetch (proxyUrl +:+ pathname +:+ search)) as [upstream|error];
    [|reflexivity].
  destruct (up_text upstream) as [text|error]; [|reflexivity].
  eexists. split; [reflexivity|].
  intros name. rewrite spread_lookup, copy_headers_lookup. reflexivity.
Qed.

End EngineFacts.

(** ** Adding a rule under an id that is taken *)

Lemma addRule_taken options s :
  map_has (choose_id options s).1 (rules s) = true →
  addRule options s
  = ({| rules := rules s; enabled := enabled s;
        nextId := (choose_id options s).2;
        attachedPage := attachedPage s |},
     Throws ("Rule with id '" +:+ (choose_id options s).1
             +:+ "' already exists")).
Proof.
  unfold addRule. destruct (choose_id options s) as [id next]. simpl.
  by intros ->.
Qed.

(** C7 (counterexample). A caller adds a rule under the id [rule-1];
    the next rule is added without an id, the engine generates [rule-1]
    for it, and [addRule] throws; the id counter, 1 before the call, is 2
    after it. *)
Lemma generated_id_collision_advances_counter :
  let s := (addRule Sample.named_rule_1 init).1 in
  let r := addRule Sample.unnamed s in
  r.2 = Throws "Rule with id 'rule-1' already exists"
  ∧ rules r.1 = rules s
  ∧ nextId s = 1
  ∧ nextId r.1 = 2
  ∧ r.1 ≠ s.
Proof.
  intros s r.
  assert (Hr : r = ({| rules := rules s; enabled := enabled s; nextId := 2;
                       attachedPage := attachedPage s |},
                    Throws "Rule with id 'rule-1' already exists")).
  { unfold r. by rewrite addRule_taken by (vm_compute; reflexivity). }
  rewrite Hr. simpl. repeat split; try done.
Qed.

(** C7 (as amended). [addRule] with an id that is already in the rule
    set, supplied by the caller or generated as [rule-<n>], throws and
    leaves the rule set, with every rule in it, the global flag and the
    attached page as they were. The id counter is as it was when the
    caller supplied the id, and one higher when the engine generated the
    id. *)
Theorem addRule_duplicate_id (options : AddInterceptRuleOptions)
    (s : InterceptManager)
    (Hdup : map_has (choose_id options s).1 (rules s) = true) :
  let r := addRule options s in
  r.2 = Throws ("Rule with id '" +:+ (choose_id options s).1
                +:+ "' already exists")
  ∧ rules r.1 = rules s
  ∧ enabled r.1 = enabled s
  ∧ attachedPage r.1 = attachedPage s
  ∧ match truthy_string (opt_id options) with
    | Some id => (choose_id options s).1 = id ∧ r.1 = s
    | None =>
        (choose_id options s).1 = "rule-" +:+ pretty (nextId s)
        ∧ nextId r.1 = nextId s + 1
    end.
Proof.
  intros r. unfold r. rewrite addRule_taken by done. simpl.
  repeat split.
  unfold choose_id. destruct (truthy_string (opt_id options)); simpl.
  - split; [done|]. by destruct s.
  - done.
Qed.

Lemma addRule_duplicate_id_witness :
  map_has (choose_id Sample.catch_all Sample.two_rules).1
    (rules Sample.two_rules) = true
  ∧ (addRule Sample.catch_all Sample.two_rules).2
    = Throws ("Rule with id '"
              +:+ (choose_id Sample.catch_all Sample.two_rules).1
              +:+ "' already exists")
  ∧ rules (addRule Sample.catch_all Sample.two_rules).1
    = rules Sample.two_rules.
Proof.
  split; [reflexivity|].
  pose proof (addRule_duplicate_id Sample.catch_all Sample.two_rules eq_refl)
    as (Hthrow & Hrules & _).
  exact (conj Hthrow Hrules).
Defined.

(** ** The engine on the sample rules *)

Example RegExp_catch_all :
  Sample.RegExp_test ".*" Sample.api_users = Normal true.
Proof. vm_compute. reflexivity. Qed.

Example RegExp_api :
  Sample.RegExp_test "/api/.*" Sample.api_users = Normal true.
Proof. vm_compute. reflexivity. Qed.

Example RegExp_no_match :
  Sample.RegExp_test "/img/.*" Sample.api_users = Normal false.
Proof. vm_compute. reflexivity. Qed.

Example RegExp_invalid :
  ∃ e, Sample.RegExp_test "(" Sample.api_users = Throws e.
Proof. eexists. vm_compute. reflexivity. Qed.

Example URL_parse_example :
  Sample.URL_parse "https://connect.test/vim-os?x=1#top"
  = Normal ("/vim-os", "?x=1").
Proof. vm_compute. reflexivity. Qed.

(** The precedence scenario of the design: with the catch-all [a] added
    before [b], a request to [/api/users] is counted for [a] only. *)
Example precedence_scenario :
  let r := handleRoute Sample.RegExp_test Sample.URL_parse Sample.api_users
             "GET" Sample.upstream_up Sample.two_rules in
  rule_id <$> listRules Sample.two_rules = ["a"; "b"]
  ∧ rule_matchCount <$> listRules r.1.1 = [1; 0]
  ∧ r.1.2 = [RouteFulfill {| fo_status := 200; fo_headers := Some ∅;
                             fo_body := "a" |}].
Proof. vm_compute. repeat split. Qed.

(** An accepted rule whose pattern is not a regular expression makes the
    scan throw: the handler's promise rejects and no rule is counted. *)
Example invalid_pattern_rejects :
  let bad := {| opt_id := Some "bad"; opt_urlPattern := "(";
                opt_method := None; opt_response := Sample.stub "bad";
                opt_delay := None; opt_enabled := None |} in
  let s := (addRule Sample.catch_all (addRule bad init).1).1 in
  ∃ e, handleRoute Sample.RegExp_test Sample.URL_parse Sample.api_users
         "GET" Sample.upstream_up s = (s, [], Throws e).
Proof. eexists. vm_compute. reflexivity. Qed.

(** C3 (counterexample). With the catch-all rule [a] in the engine and
    interception globally disabled, a request that [a] matches goes
    through and the [matchCount] of [a] stays 0. *)
Lemma disabled_engine_does_not_count :
  let s := setEnabled false (addRule Sample.catch_all init).1 in
  let r := handleRoute Sample.RegExp_test Sample.URL_parse Sample.api_users
             "GET" Sample.upstream_up s in
  (∃ rule, findMatchingRule Sample.RegExp_test (rules s) Sample.api_users "GET"
           = Normal (Some ("a", rule))
           ∧ rule_enabled rule = true
           ∧ getRule "a" s = Some rule
           ∧ rule_matchCount rule = 0)
  ∧ rule_matchCount <$> getRule "a" r.1.1 = Some 0
  ∧ ¬ (rule_matchCount <$> getRule "a" r.1.1 = Some 1).
Proof.
  intros s r. split.
  - eexists. vm_compute. repeat split.
  - vm_compute. split; [done|discriminate].
Qed.


Lemma proxy_rule_resolution_witness :
  enabled Sample.with_proxy = true
  ∧ findMatchingRule Sample.RegExp_test (rules Sample.with_proxy)
      Sample.vim_os "GET" = Normal (Some ("p", Sample.localhost_rule))
  ∧ truthy_bool (ir_abort (rule_response Sample.localhost_rule)) = false
  ∧ truthy_string (ir_proxyUrl (rule_response Sample.localhost_rule))
    = Some "http://localhost:9000"
  ∧ (handleRoute Sample.RegExp_test Sample.URL_parse Sample.vim_os "GET"
       Sample.upstream_down Sample.with_proxy).2 = Normal ().
Proof.
  split; [reflexivity|]. split; [vm_compute; reflexivity|].
  split; [reflexivity|]. split; [reflexivity|].
  exact (proj1 (proxy_rule_resolution Sample.RegExp_test Sample.URL_parse
                  Sample.with_proxy Sample.vim_os "GET" Sample.upstream_down
                  "p" Sample.localhost_rule "http://localhost:9000"
                  eq_refl eq_refl eq_refl eq_refl)).
Defined.

(** The proxy scenario: the target, the upstream status, the merged
    headers without [connection]; and the synthesized 500 when the
    upstream server is down. *)
Example proxy_scenario :
  (handleRoute Sample.RegExp_test Sample.URL_parse Sample.vim_os "GET"
     Sample.upstream_up Sample.with_proxy).1.2
  = [Delay 50; Fetch "http://localhost:9000/vim-os?x=1";
     RouteFulfill
       {| fo_status := 201;
          fo_headers :=
            Some {[ "x-proxied" := "1"; "content-type" := "text/html" ]};
          fo_body := "<html></html>" |}]
  ∧ (handleRoute Sample.RegExp_test Sample.URL_parse Sample.vim_os "GET"
       Sample.upstream_down Sample.with_proxy).1.2
    = [Delay 50; Fetch "http://localhost:9000/vim-os?x=1";
       RouteFulfill
         {| fo_status := 500; fo_headers := None;
            fo_body := "Proxy error: TypeError: fetch failed" |}].
Proof. split; vm_compute; reflexivity. Qed.

End InterceptFacts.

(** * Further properties of the event log *)

Module RecorderLaws.
Import Recorder RecorderFacts.

(** ** Queries *)

Lemma slice_nil {A : Type} (start : Z) (stop : option Z) :
  slice start stop ([] : list A) = [].
Proof. unfold slice. by rewrite drop_nil, take_nil. Qed.

Lemma slice_sublist {A : Type} (start : Z) (stop : option Z) (l : list A) :
  slice start stop l `sublist_of` l.
Proof.
  unfold slice. etrans; [apply sublist_take|apply sublist_drop].
Qed.

Lemma getEntries_matching f s :
  r_entries (getEntries f s)
  = slice 0 (Some (nullish (f_limit f) 1000)) (matching f s)
  ∧ r_hasMore (getEntries f s)
    = (Z.of_nat (length (matching f s)) >? nullish (f_limit f) 1000).
Proof.
  unfold getEntries, matching.
  by destruct (f_since f), (f_types f) as [[|t ts]|].
Qed.

Lemma matching_sublist f s : matching f s `sublist_of` entries s.
Proof.
  unfold matching.
  destruct (f_since f), (f_types f) as [[|t ts]|];
    repeat (etrans; [apply sublist_filter|]); reflexivity.
Qed.

Lemma matching_passes f s e :
  e ∈ matching f s →
  match f_since f with
  | Some since => entry_id e > since
  | None => True
  end
  ∧ match f_types f with
    | Some (t :: ts) => entry_type e ∈ t :: ts
    | _ => True
    end.
Proof.
  unfold matching.
  destruct (f_since f), (f_types f) as [[|t ts]|];
    rewrite ?list_elem_of_filter; tauto.
Qed.

(** In a contiguous block of ids, the entries above [w] are a suffix. *)
Lemma filter_above_block (l : list ActivityEntry) (m w : Z) :
  entry_id <$> l = seqZ m (Z.of_nat (length l)) →
  filter (λ e, entry_id e > w) l
  = drop (Z.to_nat (Z.max 0 (Z.min (Z.of_nat (length l)) (w + 1 - m)))) l.
Proof.
  revert m. induction l as [|e l IH]; intros m Hids;
    [by rewrite drop_nil|].
  rewrite seqZ_cons in Hids by (simpl; lia).
  rewrite fmap_cons in Hids. injection Hids as He Hl.
  assert (Hl' : entry_id <$> l = seqZ (Z.succ m) (Z.of_nat (length l)))
    by (rewrite Hl; f_equal; simpl length; lia).
  clear Hl; rename Hl' into Hl.
  specialize (IH _ Hl).
  destruct (decide (entry_id e > w)) as [Hgt|Hle].
  - rewrite filter_cons_True, IH by done.
    replace (Z.to_nat (Z.max 0 (Z.min (Z.of_nat (length (e :: l))) (w + 1 - m))))
      with 0%nat by (simpl length; lia).
    replace (Z.to_nat (Z.max 0 (Z.min (Z.of_nat (length l)) (w + 1 - Z.succ m))))
      with 0%nat by lia.
    done.
  - rewrite filter_cons_False, IH by done.
    replace (Z.to_nat (Z.max 0 (Z.min (Z.of_nat (length (e :: l))) (w + 1 - m))))
      with (S (Z.to_nat (Z.max 0 (Z.min (Z.of_nat (length l))
                                       (w + 1 - Z.succ m)))))
      by (simpl length; lia).
    done.
Qed.

Lemma block_filter_above ops w :
  let s := (run ops init).1 in
  filter (λ e, entry_id e > w) (entries s)
  = drop (Z.to_nat (Z.max 0 (Z.min (Z.of_nat (length (entries s)))
                               (w + 1 + Z.of_nat (length (entries s))
                                - nextId s))))
      (entries s).
Proof.
  intros s. pose proof (reachable_block ops) as [_ Hids _]. fold s in Hids.
  rewrite (filter_above_block _ _ w Hids). do 2 f_equal. lia.
Qed.

(** X1. In every reachable state, a query whose [since] is the current
    watermark returns no entry, whatever its kinds and limit. *)
Theorem query_at_watermark_is_empty (ops : list Op)
    (types : option (list ActivityType)) (limit : option Z) :
  let s := (run ops init).1 in
  r_entries
    (getEntries {| f_types := types;
                   f_since := Some (rs_watermark (getState s));
                   f_limit := limit |} s)
  = [].
Proof.
  intros s. rewrite (proj1 (getEntries_matching _ _)).
  assert (Hnone : filter (λ e, entry_id e > nextId s - 1) (entries s) = []).
  { unfold s. rewrite block_filter_above. fold s.
    apply drop_ge. lia. }
  unfold matching. simpl. rewrite Hnone.
  destruct types as [[|t ts]|]; rewrite ?filter_nil; apply slice_nil.
Qed.

Lemma sorted_sublist {A : Type} (R : relation A) (l1 l2 : list A) :
  l1 `sublist_of` l2 → StronglySorted R l2 → StronglySorted R l1.
Proof.
  induction 1 as [|x l1 l2 Hsub IH|x l1 l2 Hsub IH]; intros Hs.
  - constructor.
  - apply StronglySorted_inv in Hs as [Hs Hx]. constructor; [by apply IH|].
    rewrite Forall_forall in Hx |- *. intros y Hy. apply Hx.
    by eapply elem_of_sublist.
  - apply StronglySorted_inv in Hs as [Hs _]. by apply IH.
Qed.

Lemma block_sorted (l : list ActivityEntry) (m : Z) :
  entry_id <$> l = seqZ m (Z.of_nat (length l)) →
  StronglySorted (λ a b, entry_id a < entry_id b) l.
Proof.
  revert m. induction l as [|e l IH]; intros m Hids; [constructor|].
  rewrite seqZ_cons in Hids by (simpl; lia).
  rewrite fmap_cons in Hids. injection Hids as He Hl.
  assert (Hl' : entry_id <$> l = seqZ (Z.succ m) (Z.of_nat (length l)))
    by (rewrite Hl; f_equal; simpl length; lia).
  clear Hl; rename Hl' into Hl.
  constructor; [by eapply IH|].
  eapply Forall_impl; [apply (ids_bounds _ _ _ Hl)|]. simpl. lia.
Qed.

(** X2. In every reachable state and for every filter, the entries a
    query returns are entries of the log in the order of the log, their
    ids strictly increase, and each of them has an id above [since] (if
    given), a kind among [types] (if given and not empty) and an id
    between 1 and the watermark the query returns. *)
Theorem query_results_ordered (ops : list Op) (f : ActivityFilter) :
  let s := (run ops init).1 in
  let r := getEntries f s in
  r_entries r `sublist_of` entries s
  ∧ StronglySorted (λ a b, entry_id a < entry_id b) (r_entries r)
  ∧ Forall
      (λ e, match f_since f with
            | Some since => entry_id e > since
            | None => True
            end
            ∧ match f_types f with
              | Some (t :: ts) => entry_type e ∈ t :: ts
              | _ => True
              end
            ∧ 1 ≤ entry_id e ≤ r_watermark r)
      (r_entries r).
Proof.
  intros s r. pose proof (reachable_block ops) as [_ Hids Hpos].
  fold s in Hids, Hpos.
  assert (Hsub : r_entries r `sublist_of` matching f s).
  { unfold r. rewrite (proj1 (getEntries_matching _ _)). apply slice_sublist. }
  split; [etrans; [exact Hsub|apply matching_sublist]|]. split.
  - eapply sorted_sublist; [|by eapply block_sorted].
    etrans; [exact Hsub|apply matching_sublist].
  - apply Forall_forall. intros e He.
    pose proof (elem_of_sublist _ _ _ He Hsub) as Hm.
    destruct (matching_passes _ _ _ Hm) as [H1 H2].
    split; [done|]. split; [done|].
    pose proof (elem_of_sublist _ _ _ Hm (matching_sublist f s)) as Hin.
    pose proof (ids_bounds _ _ _ Hids) as Hb.
    rewrite Forall_forall in Hb. specialize (Hb _ Hin).
    change (r_watermark r) with (nextId s - 1). lia.
Qed.

(** X3. With a limit that is not negative (the default 1000 is one),
    a query returns the first [limit] matching entries, and [hasMore]
    tells whether any was left out: when it is [false] all matching
    entries are returned, when it is [true] exactly [limit] are and more
    than [limit] match. *)
Theorem query_limit_and_hasMore (f : ActivityFilter) (s : ActivityRecorder)
    (Hlimit : 0 ≤ nullish (f_limit f) 1000) :
  let limit := nullish (f_limit f) 1000 in
  let r := getEntries f s in
  r_entries r = take (Z.to_nat limit) (matching f s)
  ∧ if r_hasMore r
    then Z.of_nat (length (r_entries r)) = limit
         ∧ limit < Z.of_nat (length (matching f s))
    else r_entries r = matching f s.
Proof.
  intros limit r. destruct (getEntries_matching f s) as [He Hm].
  fold r in He, Hm. fold limit in He, Hm.
  rewrite slice_prefix in He by done. split; [done|].
  rewrite Hm, He.
  destruct (Z.gtb_spec (Z.of_nat (length (matching f s))) limit).
  - rewrite length_take. lia.
  - apply take_ge. lia.
Qed.

Lemma query_limit_and_hasMore_witness :
  0 ≤ nullish (f_limit (since_only 1)) 1000
  ∧ r_entries (getEntries (since_only 1) (run (Sample.console_burst 3) init).1)
    = take (Z.to_nat 1000)
        (matching (since_only 1) (run (Sample.console_burst 3) init).1).
Proof.
  split; [simpl; lia|].
  exact (proj1 (query_limit_and_hasMore (since_only 1)
                  (run (Sample.console_burst 3) init).1 ltac:(simpl; lia))).
Defined.

(** X4. With a negative limit [-k], a query reports [hasMore] in every
    state, the empty log included, and returns the matching entries less
    the last [k] of them. *)
Theorem query_negative_limit (f : ActivityFilter) (s : ActivityRecorder)
    (Hlimit : nullish (f_limit f) 1000 < 0) :
  let limit := nullish (f_limit f) 1000 in
  let r := getEntries f s in
  r_hasMore r = true
  ∧ r_entries r
    = take (length (matching f s) - Z.to_nat (- limit)) (matching f s).
Proof.
  intros limit r. destruct (getEntries_matching f s) as [He Hm].
  fold r in He, Hm. fold limit in He, Hm. split.
  - rewrite Hm. apply Z.gtb_lt. lia.
  - rewrite He. unfold slice, slice_index.
    change (0 <? 0) with false. cbv iota.
    destruct (Z.ltb_spec limit 0) as [_|?]; [|lia].
    replace (Z.min 0 (Z.of_nat (length (matching f s)))) with 0 by lia.
    change (Z.to_nat 0) with 0%nat. rewrite drop_0. f_equal. lia.
Qed.

Lemma query_negative_limit_witness :
  nullish (f_limit {| f_types := None; f_since := None; f_limit := Some (-1) |})
    1000 < 0
  ∧ r_hasMore
      (getEntries {| f_types := None; f_since := None; f_limit := Some (-1) |}
         init) = true.
Proof.
  split; [simpl; lia|].
  exact (proj1 (query_negative_limit
                  {| f_types := None; f_since := None; f_limit := Some (-1) |}
                  init ltac:(simpl; lia))).
Defined.

(** ** Counting by kind *)

Lemma count_type_get t t' acc :
  summary_get t (count_type t' acc)
  = if decide (t' = t) then Some (default 0 (summary_get t acc) + 1)
    else summary_get t acc.
Proof.
  induction acc as [|[t0 n] acc IH]; simpl.
  - by destruct (decide (t' = t)).
  - destruct (decide (t0 = t')) as [->|Hne]; simpl.
    + by destruct (decide (t' = t)).
    + destruct (decide (t0 = t)) as [->|Hne'].
      * by destruct (decide (t' = t)) as [->|].
      * apply IH.
Qed.

Lemma count_type_sum t acc :
  foldr Z.add 0 (count_type t acc).*2 = foldr Z.add 0 acc.*2 + 1.
Proof.
  induction acc as [|[t0 n] acc IH]; [done|].
  cbn [count_type].
  destruct (decide (t0 = t)); rewrite !fmap_cons; cbn [foldr snd];
    [lia|rewrite IH; lia].
Qed.

Lemma tally_get t (l : list ActivityEntry) acc :
  summary_get t
    (fold_left (λ summary entry, count_type (entry_type entry) summary) l acc)
  = let n := Z.of_nat (length (filter (λ e, entry_type e = t) l)) in
    match summary_get t acc with
    | Some a => Some (a + n)
    | None => if decide (n = 0) then None else Some n
    end.
Proof.
  revert acc. induction l as [|e l IH]; intros acc.
  - simpl. destruct (summary_get t acc); [f_equal; lia|done].
  - simpl fold_left. rewrite IH, count_type_get. cbv zeta.
    destruct (decide (entry_type e = t)) as [He|He].
    + rewrite filter_cons_True by done. simpl length.
      destruct (summary_get t acc); simpl.
      * f_equal. lia.
      * f_equal. lia.
    + by rewrite filter_cons_False by done.
Qed.

Lemma tally_sum (l : list ActivityEntry) acc :
  foldr Z.add 0
    (fold_left (λ summary entry, count_type (entry_type entry) summary) l acc).*2
  = foldr Z.add 0 acc.*2 + Z.of_nat (length l).
Proof.
  revert acc. induction l as [|e l IH]; intros acc; simpl; [lia|].
  rewrite IH, count_type_sum. lia.
Qed.

(** X5. [poll] answers with the entries of the query limited to 5000,
    hence at most 5000 of them, and with the current watermark; its
    summary has, for every kind, the number of returned entries of that
    kind, no key for a kind that does not occur, and counts that add up
    to the number of returned entries. *)
Theorem poll_summary_counts (since : Z) (types : option (list ActivityType))
    (s : ActivityRecorder) (t : ActivityType) :
  let p := poll since types s in
  let n := Z.of_nat (length (filter (λ e, entry_type e = t) (p_entries p))) in
  summary_get t (p_summary p) = (if decide (n = 0) then None else Some n)
  ∧ foldr Z.add 0 (p_summary p).*2 = Z.of_nat (length (p_entries p))
  ∧ Z.of_nat (length (p_entries p)) ≤ 5000
  ∧ p_watermark p = nextId s - 1
  ∧ p_entries p
    = take 5000
        (matching {| f_types := types; f_since := Some since;
                     f_limit := Some 5000 |} s).
Proof.
  intros p n. unfold n, p, poll. cbn [p_entries p_summary p_watermark].
  split; [by rewrite tally_get|]. split; [by rewrite tally_sum|].
  rewrite (proj1 (getEntries_matching _ _)). cbn [f_limit nullish].
  rewrite slice_prefix by lia. split; [|done].
  rewrite length_take. lia.
Qed.

(** The fold of [getSummary], one entry further. *)
Lemma summary_fold_snoc l e :
  fold_left summary_step (l ++ [e]) ([], None, None)
  = summary_step (fold_left summary_step l ([], None, None)) e.
Proof. by rewrite fold_left_app. Qed.

Local Ltac in_snoc :=
  first [ by apply list_elem_of_singleton
        | apply elem_of_app;
          first [by left | right; by apply list_elem_of_singleton] ].

Lemma summary_fold (l : list ActivityEntry) :
  let '(by_type, oldest, newest) :=
    fold_left summary_step l ([], None, None) in
  by_type
  = fold_left (λ summary entry, count_type (entry_type entry) summary) l []
  ∧ match oldest, newest with
    | Some o, Some n =>
        o ∈ entry_timestamp <$> l
        ∧ n ∈ entry_timestamp <$> l
        ∧ Forall (λ e, o ≤ entry_timestamp e ≤ n) l
    | None, None => l = []
    | _, _ => False
    end.
Proof.
  induction l as [|e l IH] using rev_ind; [done|].
  rewrite summary_fold_snoc.
  destruct (fold_left summary_step l ([], None, None)) as [[b o] n].
  destruct IH as [Hb Hon]. simpl. split.
  - by rewrite fold_left_app, Hb.
  - rewrite fmap_app. simpl.
    destruct o as [o|], n as [n|]; try done.
    + destruct Hon as (Ho & Hn & Hall).
      destruct (Z.ltb_spec (entry_timestamp e) o),
               (Z.gtb_spec (entry_timestamp e) n);
        (split; [in_snoc|split; [in_snoc|]]);
        apply Forall_app; (split;
          [eapply Forall_impl; [exact Hall|]; simpl; lia
          |apply Forall_singleton; lia]).
    + subst l. simpl. split; [in_snoc|split; [in_snoc|]].
      apply Forall_singleton. lia.
Qed.

(** X6. [getSummary] counts the whole retained log: for every kind the
    number of entries of that kind (no key for a kind that does not
    occur), counts that add up to [totalEntries], and as oldest and
    newest timestamps the least and the greatest timestamp of the log,
    both absent exactly when the log is empty. *)
Theorem summary_aggregates (s : ActivityRecorder) (t : ActivityType) :
  let r := getSummary s in
  let n := Z.of_nat (length (filter (λ e, entry_type e = t) (entries s))) in
  summary_get t (sum_byType r) = (if decide (n = 0) then None else Some n)
  ∧ foldr Z.add 0 (sum_byType r).*2 = sum_totalEntries r
  ∧ sum_totalEntries r = Z.of_nat (length (entries s))
  ∧ match sum_oldestTimestamp r, sum_newestTimestamp r with
    | Some o, Some n =>
        o ∈ entry_timestamp <$> entries s
        ∧ n ∈ entry_timestamp <$> entries s
        ∧ Forall (λ e, o ≤ entry_timestamp e ≤ n) (entries s)
    | None, None => entries s = []
    | _, _ => False
    end.
Proof.
  intros r n. unfold r, getSummary.
  pose proof (summary_fold (entries s)) as H.
  destruct (fold_left summary_step (entries s) ([], None, None)) as [[b o] m].
  destruct H as [-> Hon]. simpl.
  split; [by rewrite tally_get|]. split; [by rewrite tally_sum|done].
Qed.

(** ** The quick status *)

Lemma last_drop {A : Type} (k : nat) (l : list A) :
  (k < length l)%nat → last (drop k l) = last l.
Proof.
  intros Hk. rewrite !last_lookup, lookup_drop, length_drop. f_equal. lia.
Qed.

(** X7. In every reachable state the quick status since [w] counts
    the entries a query since [w] matches; that count is the distance
    from [w] to the watermark, cut to between 0 and the number of
    retained entries (so it is 0 at the watermark); the last activity
    time is absent when the count is 0 and otherwise the timestamp of the
    newest entry; without [since] all retained entries count. *)
Theorem quick_status_counts (ops : list Op) (w : Z) :
  let s := (run ops init).1 in
  let q := getQuickStatus (Some w) s in
  qs_newEntries q = Z.of_nat (length (matching (since_only w) s))
  ∧ qs_newEntries q
    = Z.max 0 (Z.min (rs_entryCount (getState s))
                 (rs_watermark (getState s) - w))
  ∧ qs_lastActivityTime q
    = (if qs_newEntries q =? 0 then None
       else entry_timestamp <$> last (entries s))
  ∧ qs_watermark q = rs_watermark (getState s)
  ∧ qs_newEntries (getQuickStatus None s) = rs_entryCount (getState s).
Proof.
  intros s q. split; [done|].
  pose proof (block_filter_above ops w) as Hf. fold s in Hf.
  unfold q, getQuickStatus. simpl. rewrite Hf, length_drop.
  set (len := length (entries s)) in *.
  set (k := Z.to_nat (Z.max 0 (Z.min (Z.of_nat len)
                                 (w + 1 + Z.of_nat len - nextId s)))).
  split; [lia|]. split; [|done].
  destruct (Z.eqb_spec (Z.of_nat (len - k)) 0) as [Hz|Hnz].
  - rewrite drop_ge by (fold len; lia). done.
  - rewrite last_drop by (fold len; lia). done.
Qed.

(** ** A stopped recorder *)

Lemma signal_while_disabled o s :
  is_signal o = true → enabled s = false →
  (step o s).2 = None
  ∧ entries (step o s).1 = entries s
  ∧ nextId (step o s).1 = nextId s
  ∧ enabled (step o s).1 = false
  ∧ autoStart (step o s).1 = autoStart s
  ∧ captureNetworkBodies (step o s).1 = captureNetworkBodies s.
Proof.
  intros Hsig Hoff.
  destruct o; try discriminate; simpl;
    unfold handleResponse, handleResponse_duration, handleResponse_record,
      handleRequestFailed, handleConsole, handlePageError, handleNavigation,
      handleDialog;
    rewrite ?handleRequest_disabled, ?Hoff, ?addEntry_disabled by done;
    simpl; by rewrite ?Hoff.
Qed.

(** X8. While recording is disabled, no sequence of page signals
    (requests, responses, late response bodies, failures, console
    messages, page errors, navigations, dialogs) creates an entry,
    consumes an id or changes anything [getState] reports. *)
Theorem stopped_recorder_ignores_signals (ops : list Op)
    (s : ActivityRecorder)
    (Hoff : enabled s = false)
    (Hsig : forallb is_signal ops = true) :
  (run ops s).2 = []
  ∧ entries (run ops s).1 = entries s
  ∧ nextId (run ops s).1 = nextId s
  ∧ getState (run ops s).1 = getState s.
Proof.
  revert s Hoff. induction ops as [|o ops IH]; intros s Hoff; [done|].
  simpl in Hsig. apply andb_prop in Hsig as [Ho Hops].
  destruct (signal_while_disabled o s Ho Hoff) as (Hc & He & Hn & Hen & Ha & Hb).
  destruct (IH Hops _ Hen) as (IHc & IHe & IHn & IHs).
  rewrite run_cons. simpl. rewrite Hc, IHc, IHe, IHn, IHs.
  unfold getState. rewrite He, Hn, Hen, Ha, Hb, Hoff. done.
Qed.

Lemma stopped_recorder_ignores_signals_witness :
  enabled Sample.stopped = false
  ∧ forallb is_signal
      [OpRequest Sample.get_x 7 7; OpConsole Sample.hello 8;
       OpResponse Sample.get_x_response 9 9 "body"] = true
  ∧ (run [OpRequest Sample.get_x 7 7; OpConsole Sample.hello 8;
          OpResponse Sample.get_x_response 9 9 "body"] Sample.stopped).2 = [].
Proof.
  split; [reflexivity|]. split; [reflexivity|].
  exact (proj1 (stopped_recorder_ignores_signals
                  [OpRequest Sample.get_x 7 7; OpConsole Sample.hello 8;
                   OpResponse Sample.get_x_response 9 9 "body"]
                  Sample.stopped eq_refl eq_refl)).
Defined.

(** ** Start times across several signals *)

Lemma handleRequest_enabled request t_start now s :
  enabled s = true →
  enabled (handleRequest request t_start now s).1 = true
  ∧ nextId (handleRequest request t_start now s).1 = nextId s + 1.
Proof.
  intros He. unfold handleRequest.
  rewrite addEntry_enabled by done. done.
Qed.

(** X9. Two requests with the same url+method key before a response:
    the start time of the later request replaces that of the earlier one,
    and the duration computed for the response is measured from the later
    request (here for a later start time other than 0). *)
Theorem later_request_overwrites_start_time (s : ActivityRecorder)
    (first second : Request) (response : Response)
    (t1 now1 t2 now2 t_end : Z)
    (Hen : enabled s = true)
    (Hsame : timing_key first = timing_key second)
    (Hkey : timing_key (resp_request response) = timing_key second)
    (Hstart : t2 ≠ 0) :
  let s1 := (handleRequest first t1 now1 s).1 in
  let s2 := (handleRequest second t2 now2 s1).1 in
  requestTimings s1 !! timing_key first = Some t1
  ∧ requestTimings s2 !! timing_key first = Some t2
  ∧ handleResponse_duration response t_end s2 = Some (Some (t_end - t2)).
Proof.
  intros s1 s2.
  destruct (handleRequest_stores first t1 now1 s) as (Ht1 & _ & _).
  destruct (handleRequest_enabled first t1 now1 s Hen) as [He1 _].
  fold s1 in Ht1, He1.
  destruct (handleRequest_stores second t2 now2 s1) as (Ht2 & _ & _).
  destruct (handleRequest_enabled second t2 now2 s1 He1) as [He2 _].
  fold s2 in Ht2, He2.
  split; [done|]. split; [by rewrite Hsame|].
  apply handleResponse_duration_stored; [done| |done]. by rewrite Hkey.
Qed.

Lemma later_request_overwrites_start_time_witness :
  enabled Sample.recording = true
  ∧ timing_key Sample.get_x = timing_key Sample.get_x
  ∧ timing_key (resp_request Sample.get_x_response) = timing_key Sample.get_x
  ∧ 1050 ≠ 0
  ∧ handleResponse_duration Sample.get_x_response 1120
      (handleRequest Sample.get_x 1050 1050
         (handleRequest Sample.get_x 1000 1000 Sample.recording).1).1
    = Some (Some (1120 - 1050)).
Proof.
  split; [reflexivity|]. split; [reflexivity|]. split; [reflexivity|].
  split; [lia|].
  exact (proj2 (proj2 (later_request_overwrites_start_time Sample.recording
                         Sample.get_x Sample.get_x Sample.get_x_response
                         1000 1000 1050 1050 1120
                         eq_refl eq_refl eq_refl ltac:(lia)))).
Defined.

(** X10. A [clear] between a request and its response: the response
    is still recorded, as the only entry of the log and under the next id
    (the counter is not reset), but without a duration, the start time
    having gone with the timing table. *)
Theorem clear_forgets_start_time (s : ActivityRecorder)
    (request : Request) (response : Response)
    (t_start now1 t_end now2 : Z) (captured : string)
    (Hen : enabled s = true) :
  let s1 := (handleRequest request t_start now1 s).1 in
  let s2 := (clear s1).1 in
  let r := handleResponse response t_end now2 captured s2 in
  (clear s1).2 = Z.of_nat (length (entries s1))
  ∧ handleResponse_duration response t_end s2 = Some None
  ∧ entries r.1
    = [ {| entry_id := nextId s + 1; entry_timestamp := now2;
           entry_type := network_response;
           entry_data :=
             ResponseData (req_method (resp_request response))
               (resp_url response)
               (req_resourceType (resp_request response))
               (resp_status response) (resp_statusText response)
               (resp_headers response) None
               (if captureNetworkBodies s then Some captured else None) |} ]
  ∧ nextId r.1 = nextId s + 2.
Proof.
  intros s1 s2 r.
  destruct (handleRequest_enabled request t_start now1 s Hen) as [He1 Hn1].
  destruct (handleRequest_stores request t_start now1 s) as (_ & _ & Hc1).
  fold s1 in He1, Hn1, Hc1.
  assert (Hd : handleResponse_duration response t_end s2 = Some None).
  { unfold handleResponse_duration, s2. simpl. rewrite He1. simpl.
    by rewrite lookup_empty. }
  split; [done|]. split; [done|].
  unfold r, handleResponse. rewrite Hd. unfold handleResponse_record.
  rewrite addEntry_enabled by (unfold s2; simpl; done).
  unfold s2. simpl. rewrite Hn1, Hc1. split; [done|lia].
Qed.

Lemma clear_forgets_start_time_witness :
  enabled Sample.recording = true
  ∧ handleResponse_duration Sample.get_x_response 1120
      (clear (handleRequest Sample.get_x 1000 1000 Sample.recording).1).1
    = Some None.
Proof.
  split; [reflexivity|].
  exact (proj1 (proj2 (clear_forgets_start_time Sample.recording
                         Sample.get_x Sample.get_x_response
                         1000 1000 1120 1120 "body" eq_refl))).
Defined.

(** ** Body capture *)

(** X11. [captureResponseBody] returns the decoded body only when the
    body is at most 1 MiB long and the [content-type] header is present
    and contains [text], [json], [javascript] or [xml]; in every other
    case what it returns for a body that could be read depends on the
    length of the body only, not on its bytes, and a body that could not
    be read gives a placeholder with the error. Without a [content-type]
    header nothing is text. *)
Theorem capture_keeps_small_text_only (body other : Buffer) (headers : Headers)
    (error : string) :
  let contentType :=
    nullish (truthy_string (headers !! "content-type")) EmptyString in
  MAX_RESPONSE_BODY_SIZE = 1048576
  ∧ isTextContent EmptyString = false
  ∧ captureResponseBody (Throws error) headers
    = "[failed to capture: " +:+ error +:+ "]"
  ∧ if (buf_length body <=? MAX_RESPONSE_BODY_SIZE) && isTextContent contentType
    then captureResponseBody (Normal body) headers = buf_utf8 body
    else buf_length other = buf_length body →
         captureResponseBody (Normal other) headers
         = captureResponseBody (Normal body) headers.
Proof.
  intros contentType. split; [done|]. split; [done|]. split; [done|].
  unfold captureResponseBody. fold contentType.
  destruct (Z.leb_spec (buf_length body) MAX_RESPONSE_BODY_SIZE) as [Hle|Hgt];
    simpl.
  - destruct (Z.gtb_spec (buf_length body) MAX_RESPONSE_BODY_SIZE); [lia|].
    destruct (isTextContent contentType); [done|].
    intros ->.
    by destruct (Z.gtb_spec (buf_length body) MAX_RESPONSE_BODY_SIZE); [lia|].
  - intros ->.
    by destruct (Z.gtb_spec (buf_length body) MAX_RESPONSE_BODY_SIZE); [|lia].
Qed.

End RecorderLaws.

(** * Further properties of the interception rule engine *)

Module InterceptLaws.
Import Intercept InterceptFacts.

(** ** The ordered map, continued *)

Section OrderedMapLaws.
Context {V : Type}.
Implicit Types (m : OMap V) (k : string) (v : V).

Lemma map_set_set k v v' m : map_set k v (map_set k v' m) = map_set k v m.
Proof.
  induction m as [|[k0 v0] m IH]; simpl.
  - by destruct (decide (k = k)).
  - destruct (decide (k0 = k)) as [->|Hne]; simpl.
    + by destruct (decide (k = k)).
    + destruct (decide (k0 = k)); [done|]. by rewrite IH.
Qed.

Lemma map_get_None k m : map_get k m = None ↔ k ∉ m.*1.
Proof.
  rewrite <- map_has_elem_of. unfold map_has.
  destruct (map_get k m); split; done.
Qed.

Lemma map_remove_absent k m : map_has k m = false → map_remove k m = m.
Proof.
  unfold map_has. induction m as [|[k0 v0] m IH]; simpl; [done|].
  destruct (decide (k0 = k)); [done|]. intros H. by rewrite IH.
Qed.

(** With keys that are unique, removing a key filters it out. *)
Lemma map_remove_filter k m :
  NoDup m.*1 →
  (map_remove k m : list (string * V)) = filter (λ kv, kv.1 ≠ k) m.
Proof.
  unfold OMap in *. induction m as [|[k0 v0] m IH]; [done|].
  rewrite fmap_cons, NoDup_cons. intros [Hnotin Hnd]. simpl in Hnotin.
  cbn [map_remove]. destruct (decide (k0 = k)) as [->|Hne].
  - rewrite filter_cons_False by (simpl; auto).
    symmetry. apply RecorderFacts.filter_all. apply Forall_forall.
    intros [k1 v1] Hin Heq. simpl in Heq. subst k1.
    apply Hnotin. apply list_elem_of_fmap. by exists (k, v1).
  - rewrite filter_cons_True by done. by rewrite IH.
Qed.

Lemma map_get_remove_eq k m : NoDup m.*1 → map_get k (map_remove k m) = None.
Proof.
  intros Hnd. apply map_get_None. rewrite map_remove_filter by done.
  intros Hin. apply list_elem_of_fmap in Hin as ([k1 v1] & -> & Hin).
  apply list_elem_of_filter in Hin as [Hne _]. by apply Hne.
Qed.

Lemma map_get_remove_ne k k' m :
  k ≠ k' → map_get k' (map_remove k m) = map_get k' m.
Proof.
  intros Hne. induction m as [|[k0 v0] m IH]; simpl; [done|].
  destruct (decide (k0 = k)) as [->|Hk]; simpl.
  - by destruct (decide (k = k')).
  - destruct (decide (k0 = k')); [done|apply IH].
Qed.

Lemma map_get_elem_of k v m : NoDup m.*1 → (k, v) ∈ m → map_get k m = Some v.
Proof.
  induction m as [|[k0 v0] m IH]; [by intros _ ?%elem_of_nil|].
  rewrite fmap_cons, NoDup_cons, elem_of_cons. intros [Hnotin Hnd] Hin.
  simpl in *. destruct (decide (k0 = k)) as [->|Hne].
  - destruct Hin as [[= ->]|Hin]; [done|].
    exfalso. apply Hnotin. apply list_elem_of_fmap. by exists (k, v).
  - destruct Hin as [[= -> ->]|Hin]; [done|]. by apply IH.
Qed.
End OrderedMapLaws.

(** ** Managing the rules *)

(** X12. [toggleRule] on an id that is not in the rule set throws
    and leaves the engine as it was. On an id that is in the set it
    returns the rule with the enabled flag as asked and every other field,
    the match count included, as before; the rule keeps its place, the
    other rules are untouched, and a second call with the same arguments
    changes nothing more. *)
Theorem toggleRule_effect (id : string) (b : bool) (s : InterceptManager) :
  let r := toggleRule id b s in
  match getRule id s with
  | None => r = (s, Throws ("Rule with id '" +:+ id +:+ "' not found"))
  | Some rule =>
      r.2 = Normal (set_rule_enabled b rule)
      ∧ rule_enabled (set_rule_enabled b rule) = b
      ∧ rule_matchCount (set_rule_enabled b rule) = rule_matchCount rule
      ∧ getRule id r.1 = Some (set_rule_enabled b rule)
      ∧ (∀ other, other ≠ id → getRule other r.1 = getRule other s)
      ∧ (rules r.1).*1 = (rules s).*1
      ∧ nextId r.1 = nextId s
      ∧ enabled r.1 = enabled s
      ∧ toggleRule id b r.1 = r
  end.
Proof.
  intros r. unfold r, toggleRule, getRule.
  destruct (map_get id (rules s)) as [rule|] eqn:Hget; [|done].
  simpl. split; [done|]. split; [done|]. split; [done|].
  split; [apply map_get_set_eq|].
  split; [intros other Hne; by apply map_get_set_ne|].
  split; [apply map_set_keys; unfold map_has; by rewrite Hget|].
  split; [done|]. split; [done|].
  rewrite map_get_set_eq. unfold set_rules. simpl.
  by rewrite map_set_set.
Qed.

(** X13. In an engine whose rule map has unique keys, [removeRule]
    returns whether the id was in the rule set; afterwards the id is not
    in the set, the other rules are there unchanged and in their order,
    and the counter and the global flag are as before. Removing an id that
    is not in the set returns [false] and changes nothing. *)
Theorem removeRule_effect (id : string) (s : InterceptManager)
    (Hkeys : well_keyed s) :
  let r := removeRule id s in
  r.2 = map_has id (rules s)
  ∧ getRule id r.1 = None
  ∧ (∀ other, other ≠ id → getRule other r.1 = getRule other s)
  ∧ (rules r.1 : list (string * InterceptRule))
    = filter (λ kr, kr.1 ≠ id) (rules s)
  ∧ nextId r.1 = nextId s
  ∧ enabled r.1 = enabled s
  ∧ if r.2 then True else r.1 = s.
Proof.
  intros r. destruct Hkeys as [Hnd _]. unfold r, removeRule, getRule. simpl.
  split; [done|]. split; [by apply map_get_remove_eq|].
  split; [intros other Hne; by apply map_get_remove_ne|].
  split; [by apply map_remove_filter|]. split; [done|]. split; [done|].
  destruct (map_has id (rules s)) eqn:Hhas; [done|].
  rewrite map_remove_absent by done. by destruct s.
Qed.

Lemma two_rules_well_keyed : well_keyed Sample.two_rules.
Proof.
  split.
  - apply (bool_decide_unpack _). vm_compute. reflexivity.
  - repeat constructor.
Qed.

Lemma removeRule_effect_witness :
  well_keyed Sample.two_rules
  ∧ (removeRule "a" Sample.two_rules).2 = map_has "a" (rules Sample.two_rules)
  ∧ getRule "a" (removeRule "a" Sample.two_rules).1 = None.
Proof.
  split; [exact two_rules_well_keyed|].
  pose proof (removeRule_effect "a" Sample.two_rules two_rules_well_keyed)
    as (H1 & H2 & _).
  exact (conj H1 H2).
Defined.

Lemma fold_matches_acc (l : list InterceptRule) (a : Z) :
  fold_left (λ sum rule, sum + rule_matchCount rule) l a
  = a + fold_left (λ sum rule, sum + rule_matchCount rule) l 0.
Proof.
  revert a. induction l as [|r l IH]; intros a; simpl; [lia|].
  rewrite IH, (IH (0 + _)). lia.
Qed.

Lemma totalMatches_cons k rule m s :
  st_totalMatches (getStatus (set_rules ((k, rule) :: m) s))
  = rule_matchCount rule + st_totalMatches (getStatus (set_rules m s)).
Proof.
  unfold getStatus, map_values. simpl.
  by rewrite fold_matches_acc.
Qed.

Lemma totalMatches_snoc k rule m s :
  st_totalMatches (getStatus (set_rules (m ++ [(k, rule)]) s))
  = st_totalMatches (getStatus (set_rules m s)) + rule_matchCount rule.
Proof.
  unfold getStatus, map_values. simpl.
  by rewrite fmap_app, fold_left_app.
Qed.

(** X14. [addRule] with an id that is not in the rule set returns a
    rule with that id, match count 0, delay defaulting to 0 and enabled
    defaulting to [true]; the rule is then found under its id and is the
    last of [listRules], the rules that were there are unchanged, the
    rule count is one higher and the total of matches is the same. *)
Theorem addRule_fresh_id (options : AddInterceptRuleOptions)
    (s : InterceptManager)
    (Hfresh : map_has (choose_id options s).1 (rules s) = false) :
  let r := addRule options s in
  let id := (choose_id options s).1 in
  ∃ rule,
    r.2 = Normal rule
    ∧ rule_id rule = id
    ∧ rule_matchCount rule = 0
    ∧ rule_enabled rule = nullish (opt_enabled options) true
    ∧ rule_delay rule = Some (nullish (opt_delay options) 0)
    ∧ getRule id r.1 = Some rule
    ∧ listRules r.1 = listRules s ++ [rule]
    ∧ (∀ other, other ≠ id → getRule other r.1 = getRule other s)
    ∧ st_ruleCount (getStatus r.1) = st_ruleCount (getStatus s) + 1
    ∧ st_totalMatches (getStatus r.1) = st_totalMatches (getStatus s).
Proof.
  intros r id. unfold r, id, addRule in *.
  destruct (choose_id options s) as [i n]. simpl in *. rewrite Hfresh.
  eexists. split; [reflexivity|]. simpl.
  split; [done|]. split; [done|]. split; [done|]. split; [done|].
  unfold getRule, listRules. simpl.
  split; [apply map_get_set_eq|].
  rewrite map_set_fresh by done.
  split; [unfold map_values; by rewrite fmap_app|].
  split.
  - intros other Hne. rewrite <- (map_set_fresh i _ _ Hfresh).
    by apply map_get_set_ne.
  - split.
    + unfold getStatus, map_size. simpl. rewrite length_app. simpl. lia.
    + unfold getStatus, map_values. simpl.
      rewrite fmap_app, fold_left_app. simpl. lia.
Qed.

Lemma addRule_fresh_id_witness :
  map_has (choose_id Sample.catch_all init).1 (rules init) = false
  ∧ ∃ rule, (addRule Sample.catch_all init).2 = Normal rule
            ∧ rule_id rule = (choose_id Sample.catch_all init).1.
Proof.
  split; [reflexivity|].
  destruct (addRule_fresh_id Sample.catch_all init eq_refl)
    as (rule & H1 & H2 & _).
  exists rule. exact (conj H1 H2).
Defined.

(** ** Generated ids *)

Lemma addRules_cons o opts s :
  addRules (o :: opts) s
  = ((addRules opts (addRule o s).1).1,
     (addRule o s).2 :: (addRules opts (addRule o s).1).2).
Proof.
  simpl. destruct (addRule o s) as [s1 c]. simpl.
  by destruct (addRules opts s1).
Qed.

Lemma generated_id_fresh (s : InterceptManager) :
  Forall (λ kr, ∃ k, k < nextId s ∧ kr.1 = "rule-" +:+ pretty k) (rules s) →
  map_has ("rule-" +:+ pretty (nextId s)) (rules s) = false.
Proof.
  intros Hall. destruct (map_has _ (rules s)) eqn:Hhas; [|done].
  apply map_has_elem_of in Hhas.
  apply list_elem_of_fmap in Hhas as ([k0 r0] & Hk & Hin).
  rewrite Forall_forall in Hall. destruct (Hall _ Hin) as (k & Hlt & Heq).
  simpl in *. rewrite Heq in Hk. simpl in Hk. injection Hk as Hk.
  change (pretty (nextId s) = pretty k) in Hk.
  apply (inj pretty) in Hk. lia.
Qed.

Lemma addRules_generated opts s :
  forallb (λ o, bool_decide (truthy_string (opt_id o) = None)) opts = true →
  Forall (λ kr, ∃ k, k < nextId s ∧ kr.1 = "rule-" +:+ pretty k) (rules s) →
  ∃ new : list (string * InterceptRule),
    rules (addRules opts s).1 = rules s ++ new
    ∧ (addRules opts s).2 = Normal <$> new.*2
    ∧ new.*1 = (λ k, "rule-" +:+ pretty k)
               <$> seqZ (nextId s) (Z.of_nat (length opts))
    ∧ rule_id <$> new.*2 = new.*1
    ∧ nextId (addRules opts s).1 = nextId s + Z.of_nat (length opts).
Proof.
  revert s. induction opts as [|o opts IH]; intros s Hno Hall.
  - exists []. simpl. rewrite app_nil_r. repeat split; lia.
  - simpl in Hno. apply andb_prop in Hno as [Ho Hno].
    apply bool_decide_eq_true in Ho.
    pose proof (generated_id_fresh s Hall) as Hfresh.
    rewrite addRules_cons. cbn [fst snd].
    assert (Hadd : ∃ rule,
               addRule o s
               = ({| rules := rules s ++ [("rule-" +:+ pretty (nextId s), rule)];
                     enabled := enabled s; nextId := nextId s + 1;
                     attachedPage := attachedPage s |}, Normal rule)
               ∧ rule_id rule = "rule-" +:+ pretty (nextId s)).
    { unfold addRule, choose_id. rewrite Ho. cbn [fst snd rules].
      change (String.append "rule-" (pretty (nextId s)))
        with ("rule-" +:+ pretty (nextId s)).
      rewrite Hfresh. eexists.
      split;
        [unfold set_rules; cbn [rules enabled nextId attachedPage];
         by rewrite map_set_fresh
        |reflexivity]. }
    destruct Hadd as (rule & -> & Hid). cbn [fst snd].
    set (s1 := {| rules := rules s ++ [("rule-" +:+ pretty (nextId s), rule)];
                  enabled := enabled s; nextId := nextId s + 1;
                  attachedPage := attachedPage s |}).
    destruct (IH s1 Hno) as (new & Hr & Hc & Hk & Hi & Hn).
    { unfold s1. cbn [rules nextId]. apply Forall_app. split.
      - eapply Forall_impl; [exact Hall|]. simpl.
        intros kr (k & Hlt & Hkr). exists k. split; [lia|done].
      - apply Forall_singleton. exists (nextId s). split; [lia|done]. }
    change (rules s1)
      with (rules s ++ [("rule-" +:+ pretty (nextId s), rule)]) in Hr.
    change (nextId s1) with (nextId s + 1) in Hk, Hn.
    exists (("rule-" +:+ pretty (nextId s), rule) :: new).
    rewrite Hr, Hc, Hn, <- app_assoc. simpl length.
    split; [done|]. split; [done|]. split.
    + rewrite fmap_cons, Hk.
      rewrite (seqZ_cons (nextId s)) by lia. rewrite fmap_cons.
      do 3 f_equal; lia.
    + split; [|lia]. rewrite !fmap_cons. cbn [fst snd]. by rewrite Hid, Hi.
Qed.

(** X15. In an engine that is only ever given rules without an id,
    [addRule] never throws: the calls return the rules now listed, in
    order, and their ids are [rule-1], [rule-2], ... in order. *)
Theorem generated_ids_never_collide (opts : list AddInterceptRuleOptions)
    (Hnoid :
       forallb (λ o, bool_decide (truthy_string (opt_id o) = None)) opts
       = true) :
  let r := addRules opts init in
  r.2 = Normal <$> listRules r.1
  ∧ rule_id <$> listRules r.1
    = (λ k, "rule-" +:+ pretty k) <$> seqZ 1 (Z.of_nat (length opts))
  ∧ nextId r.1 = 1 + Z.of_nat (length opts).
Proof.
  intros r.
  destruct (addRules_generated opts init Hnoid) as (new & Hr & Hc & Hk & Hi & Hn);
    [by apply Forall_nil|].
  fold r in Hr, Hc, Hn. simpl in Hr, Hk, Hn.
  unfold listRules, map_values. rewrite Hr, Hc, Hi, Hk. done.
Qed.

Lemma generated_ids_never_collide_witness :
  forallb (λ o, bool_decide (truthy_string (opt_id o) = None))
    [Sample.unnamed; Sample.unnamed] = true
  ∧ rule_id <$> listRules (addRules [Sample.unnamed; Sample.unnamed] init).1
    = (λ k, "rule-" +:+ pretty k) <$> seqZ 1 (Z.of_nat 2).
Proof.
  split; [reflexivity|].
  exact (proj1 (proj2 (generated_ids_never_collide
                         [Sample.unnamed; Sample.unnamed] eq_refl))).
Defined.

(** ** Routing, continued *)

Lemma total_map_set k rule (m : OMap InterceptRule) (a : Z) :
  NoDup m.*1 → (k, rule) ∈ m →
  fold_left (λ sum r, sum + rule_matchCount r)
    (map_values (map_set k (count_match rule) m)) a
  = fold_left (λ sum r, sum + rule_matchCount r) (map_values m) a + 1.
Proof.
  unfold map_values. revert a.
  induction m as [|[k0 r0] m IH]; intros a; [by intros _ ?%elem_of_nil|].
  rewrite fmap_cons, NoDup_cons, elem_of_cons. intros [Hnotin Hnd] Hin.
  cbn [map_set fst] in *. destruct (decide (k0 = k)) as [->|Hne].
  - assert (r0 = rule) as ->.
    { destruct Hin as [[= ->]|Hin]; [done|].
      exfalso. apply Hnotin. apply list_elem_of_fmap. by exists (k, rule). }
    rewrite !fmap_cons. cbn [fold_left snd count_match rule_matchCount].
    rewrite fold_matches_acc, (fold_matches_acc _ (a + _)). lia.
  - destruct Hin as [[= -> ->]|Hin]; [done|].
    rewrite !fmap_cons. cbn [fold_left snd]. by apply IH.
Qed.

Section RoutingLaws.
Context (RegExp_test : string → string → Completion bool).
Context (URL_parse : string → Completion (string * string)).

Local Abbreviation findMatchingRule := (findMatchingRule RegExp_test).
Local Abbreviation handleRoute := (handleRoute RegExp_test URL_parse).
Local Abbreviation respond := (respond URL_parse).

(** X16. In an engine whose rule map has unique keys, handling a
    request raises the total of matches that [getStatus] reports by
    exactly one when interception is globally enabled and a rule matches,
    and leaves it as it was otherwise; the rule count and the global flag
    do not change. *)
Theorem totalMatches_counts_requests (s : InterceptManager)
    (url method : string) (fetch : string → Completion UpstreamResponse)
    (Hkeys : well_keyed s) :
  let after := getStatus (handleRoute url method fetch s).1.1 in
  st_totalMatches after
  = st_totalMatches (getStatus s)
    + (if enabled s
       then match findMatchingRule (rules s) url method with
            | Normal (Some _) => 1
            | _ => 0
            end
       else 0)
  ∧ st_ruleCount after = st_ruleCount (getStatus s)
  ∧ st_enabled after = st_enabled (getStatus s).
Proof.
  intros after. unfold after. rewrite handleRoute_rules.
  destruct Hkeys as [Hnd _].
  destruct (enabled s) eqn:Hen; [|repeat split; lia].
  destruct (findMatchingRule (rules s) url method) as [[[slot rule]|]|e] eqn:Hf;
    [|repeat split; lia..].
  apply findMatchingRule_elem_of in Hf.
  unfold getStatus, map_size. simpl.
  split; [by apply total_map_set|]. split; [|done].
  f_equal. rewrite <- !(length_fmap fst).
  rewrite map_set_keys; [done|]. apply map_has_elem_of.
  apply list_elem_of_fmap. by exists (slot, rule).
Qed.

Lemma respond_settles rule url fetch :
  ∃ before final,
    respond rule url fetch = before ++ [final]
    ∧ settles final = true
    ∧ forallb (λ e, negb (settles e)) before = true.
Proof.
  unfold Intercept.respond.
  set (delayed := match truthy_number (rule_delay rule) with
                  | Some d => if d >? 0 then [Delay d] else []
                  | None => []
                  end).
  assert (Hd : forallb (λ e, negb (settles e)) delayed = true).
  { unfold delayed. destruct (truthy_number _) as [d|]; [|done].
    by destruct (d >? 0). }
  assert (Hd' : ∀ u, forallb (λ e, negb (settles e)) (delayed ++ [Fetch u])
                     = true).
  { intros u. by rewrite forallb_app, Hd. }
  destruct (truthy_bool _); [by exists delayed, (RouteAbort "failed")|].
  destruct (truthy_string _) as [proxyUrl|];
    [|by eexists delayed, (RouteFulfill _)].
  destruct (URL_parse url) as [[pathname search]|e];
    [|by eexists delayed, (RouteFulfill _)].
  destruct (fetch _) as [up|e].
  - destruct (up_text up) as [body|e];
      eexists (delayed ++ [Fetch _]), (RouteFulfill _);
      by rewrite <- app_assoc.
  - eexists (delayed ++ [Fetch _]), (RouteFulfill _).
    by rewrite <- app_assoc.
Qed.

(** X17. Whenever the promise of [handleRoute] resolves, the route
    has been settled exactly once, by the last thing the handler did:
    one continue, abort or fulfill, preceded only by a delay and a fetch
    at most. When the promise rejects (the scan met a pattern that is not
    a regular expression) the route has not been settled at all and the
    engine is unchanged. *)
Theorem route_settled_once (s : InterceptManager) (url method : string)
    (fetch : string → Completion UpstreamResponse) :
  let r := handleRoute url method fetch s in
  match r.2 with
  | Normal _ =>
      ∃ before final,
        r.1.2 = before ++ [final]
        ∧ settles final = true
        ∧ forallb (λ e, negb (settles e)) before = true
  | Throws _ => r.1.2 = [] ∧ r.1.1 = s
  end.
Proof.
  intros r. unfold r, Intercept.handleRoute.
  destruct (enabled s); simpl; [|by exists [], RouteContinue].
  destruct (findMatchingRule (rules s) url method) as [[[slot rule]|]|e];
    simpl; [apply respond_settles|by exists [], RouteContinue|done].
Qed.

(** X18. A winning rule that asks for an abort aborts the request
    with [failed], after its delay if it has one, whether or not it also
    names a proxy: nothing is fetched and nothing is fulfilled. *)
Theorem abort_rule_never_fetches (s : InterceptManager) (url method : string)
    (fetch : string → Completion UpstreamResponse)
    (slot : string) (rule : InterceptRule)
    (Hen : enabled s = true)
    (Hfind : findMatchingRule (rules s) url method = Normal (Some (slot, rule)))
    (Habort : truthy_bool (ir_abort (rule_response rule)) = true) :
  let r := handleRoute url method fetch s in
  r.2 = Normal ()
  ∧ r.1.2
    = match truthy_number (rule_delay rule) with
      | Some d => if d >? 0 then [Delay d] else []
      | None => []
      end ++ [RouteAbort "failed"]
  ∧ getRule slot r.1.1 = Some (count_match rule).
Proof.
  intros r. unfold r, Intercept.handleRoute. rewrite Hen, Hfind.
  cbn [negb fst snd]. split; [done|]. split.
  - unfold Intercept.respond.
    change (rule_response (count_match rule)) with (rule_response rule).
    change (rule_delay (count_match rule)) with (rule_delay rule).
    by rewrite Habort.
  - apply map_get_set_eq.
Qed.

(** X19. Disabled rules take no part in matching: the scan gives
    what it gives on the rule map with the disabled rules left out. Their
    patterns are not even compiled, so a rule whose pattern is not a
    regular expression stops making requests fail once it is toggled
    off. *)
Theorem disabled_rules_are_invisible (m : OMap InterceptRule)
    (url method : string) :
  findMatchingRule m url method
  = findMatchingRule
      (filter (λ kr, rule_enabled kr.2 = true) (m : list (string * InterceptRule)))
      url method.
Proof.
  unfold OMap in *. induction m as [|[k rule] m IH]; [done|].
  destruct (rule_enabled rule) eqn:Hen.
  - rewrite filter_cons_True by done. simpl. rewrite Hen. simpl.
    destruct (RegExp_test (rule_urlPattern rule) url) as [[|]|e]; [|done..].
    destruct (truthy_string (rule_method rule)) as [m'|]; [|done].
    by destruct (decide (toUpperCase m' ≠ toUpperCase method)).
  - rewrite filter_cons_False by (simpl; congruence).
    simpl. by rewrite Hen.
Qed.

(** X20. [clearRules] returns the number of rules there were and
    leaves none: the status then counts no rule and no match, every
    request continues untouched whatever interception was doing before,
    and the id counter is not reset, so an id generated later is not one
    generated before. *)
Theorem clearRules_effect (s : InterceptManager) (url method : string)
    (fetch : string → Completion UpstreamResponse) :
  let r := clearRules s in
  r.2 = st_ruleCount (getStatus s)
  ∧ listRules r.1 = []
  ∧ getStatus r.1
    = {| st_enabled := enabled s; st_ruleCount := 0; st_totalMatches := 0 |}
  ∧ nextId r.1 = nextId s
  ∧ handleRoute url method fetch r.1 = (r.1, [RouteContinue], Normal ()).
Proof.
  intros r. unfold r, clearRules, Intercept.handleRoute. simpl.
  repeat split. by destruct (enabled s).
Qed.

End RoutingLaws.

Lemma totalMatches_counts_requests_witness :
  well_keyed Sample.two_rules
  ∧ st_totalMatches
      (getStatus
         (handleRoute Sample.RegExp_test Sample.URL_parse Sample.api_users
            "GET" Sample.upstream_up Sample.two_rules).1.1)
    = st_totalMatches (getStatus Sample.two_rules)
      + (if enabled Sample.two_rules
         then match findMatchingRule Sample.RegExp_test
                      (rules Sample.two_rules) Sample.api_users "GET" with
              | Normal (Some _) => 1
              | _ => 0
              end
         else 0).
Proof.
  split; [exact two_rules_well_keyed|].
  exact (proj1 (totalMatches_counts_requests Sample.RegExp_test
                  Sample.URL_parse Sample.two_rules Sample.api_users "GET"
                  Sample.upstream_up two_rules_well_keyed)).
Defined.

Lemma abort_rule_never_fetches_witness :
  enabled Sample.with_block = true
  ∧ findMatchingRule Sample.RegExp_test (rules Sample.with_block)
      Sample.api_users "GET" = Normal (Some ("block", Sample.blocking_rule))
  ∧ truthy_bool (ir_abort (rule_response Sample.blocking_rule)) = true
  ∧ truthy_string (ir_proxyUrl (rule_response Sample.blocking_rule))
    = Some "http://localhost:9000"
  ∧ (handleRoute Sample.RegExp_test Sample.URL_parse Sample.api_users "GET"
       Sample.upstream_up Sample.with_block).1.2
    = [RouteAbort "failed"].
Proof.
  split; [reflexivity|]. split; [vm_compute; reflexivity|].
  split; [reflexivity|]. split; [reflexivity|].
  exact (proj1 (proj2 (abort_rule_never_fetches Sample.RegExp_test
                         Sample.URL_parse Sample.with_block Sample.api_users
                         "GET" Sample.upstream_up "block" Sample.blocking_rule
                         eq_refl eq_refl eq_refl))).
Defined.

End InterceptLaws.

(** * Properties of the managed files *)

Module FilesFacts.
Import Files.

Lemma endsWith_refl s : endsWith s s = true.
Proof. destruct s; cbn [endsWith]; by rewrite String.eqb_refl. Qed.

Lemma endsWith_app a suffix : endsWith (a +:+ suffix) suffix = true.
Proof.
  induction a as [|c a IH].
  - apply endsWith_refl.
  - change (String c a +:+ suffix) with (String c (a +:+ suffix)).
    cbn [endsWith]. rewrite IH. apply orb_true_r.
Qed.

Lemma normalizeFilename_ends fm name :
  endsWith (normalizeFilename fm name) (extension fm) = true.
Proof.
  unfold normalizeFilename.
  destruct (endsWith name (extension fm)) eqn:He; [done|].
  apply endsWith_app.
Qed.

Section ManagerFacts.
Context (path_join : string → string → string).

Local Abbreviation getFilepath := (getFilepath path_join).
Local Abbreviation getResult := (getResult path_join).
Local Abbreviation file_exists := (file_exists path_join).
Local Abbreviation delete_file := (delete_file path_join).
Local Abbreviation save := (save path_join).
Local Abbreviation read := (read path_join).

(** X21. [normalizeFilename] is idempotent and never doubles the
    extension: its result ends with the extension, a name that already
    ends with it (a normalized one, or any name followed by the
    extension) is returned as it is, and [getFilepath] and [getResult]
    give the same path for a name and for its normalized form. *)
Theorem normalizeFilename_idempotent (fm : FileManager) (name : string) :
  endsWith (normalizeFilename fm name) (extension fm) = true
  ∧ normalizeFilename fm (normalizeFilename fm name) = normalizeFilename fm name
  ∧ normalizeFilename fm (name +:+ extension fm) = name +:+ extension fm
  ∧ getFilepath fm (normalizeFilename fm name) = getFilepath fm name
  ∧ fr_filename (getResult fm name) = normalizeFilename fm name
  ∧ fr_path (getResult fm name) = getFilepath fm name.
Proof.
  pose proof (normalizeFilename_ends fm name) as He.
  assert (Hi : normalizeFilename fm (normalizeFilename fm name)
               = normalizeFilename fm name).
  { unfold normalizeFilename at 1. by rewrite He. }
  split; [done|]. split; [done|]. split.
  - unfold normalizeFilename. by rewrite endsWith_app.
  - unfold Files.getFilepath. by rewrite Hi.
Qed.

(** X22. [list] returns names of the directory, in the order of the
    directory listing, each of which ends with the extension and is
    therefore taken as it is by [normalizeFilename]; for a directory that
    does not exist it returns nothing. *)
Theorem listed_names_are_normalized (fm : FileManager) (names : list string) :
  list_files fm None = []
  ∧ list_files fm (Some names) `sublist_of` names
  ∧ Forall (λ f, endsWith f (extension fm) = true
                 ∧ normalizeFilename fm f = f
                 ∧ getFilepath fm f = path_join (directory fm) f)
      (list_files fm (Some names)).
Proof.
  split; [done|]. split; [apply sublist_filter|].
  apply Forall_forall. intros f Hf.
  apply list_elem_of_filter in Hf as [He _].
  unfold Files.getFilepath, normalizeFilename. by rewrite He.
Qed.

(** X23. A script that was saved reads back: [read] after [save]
    returns the code, under the name used and under its normalized form,
    [exists] is then true, and a second [save] under the same name
    replaces the code. *)
Theorem saved_script_reads_back (fm : FileManager) (name code code' : string)
    (fs : FileSystem) :
  let fs1 := (save fm name code fs).1 in
  read fm name fs1 = Normal code
  ∧ read fm (normalizeFilename fm name) fs1 = Normal code
  ∧ file_exists fm name fs1 = true
  ∧ (save fm name code fs).2 = getResult fm name
  ∧ read fm name (save fm name code' fs1).1 = Normal code'.
Proof.
  intros fs1.
  assert (Hread : ∀ c (g : FileSystem),
            read fm name (<[getFilepath fm name := c]> g) = Normal c).
  { intros c g. unfold Files.read, Files.file_exists.
    rewrite lookup_insert_eq.
    by rewrite bool_decide_eq_true_2 by by eexists. }
  split; [apply Hread|]. split.
  - unfold Files.read, Files.file_exists, Files.getFilepath.
    assert (Hi : normalizeFilename fm (normalizeFilename fm name)
                 = normalizeFilename fm name).
    { unfold normalizeFilename at 1.
      by rewrite (normalizeFilename_ends fm name). }
    rewrite Hi. unfold fs1, Files.save, Files.getFilepath. simpl.
    rewrite lookup_insert_eq.
    by rewrite bool_decide_eq_true_2 by by eexists.
  - split.
    + unfold Files.file_exists, fs1, Files.save. simpl.
      rewrite lookup_insert_eq. by apply bool_decide_eq_true_2.
    + split; [done|apply Hread].
Qed.

(** X24. [delete] returns whether the file was there; afterwards the
    file is not there, reading it throws, a second [delete] returns
    [false], and the files under other paths are untouched. When the file
    was not there nothing changes. A saved script can be deleted. *)
Theorem delete_file_effect (fm : FileManager) (name code : string)
    (fs : FileSystem) :
  let r := delete_file fm name fs in
  r.2 = file_exists fm name fs
  ∧ file_exists fm name r.1 = false
  ∧ read fm name r.1 = Throws ("Script not found: " +:+ name)
  ∧ delete_file fm name r.1 = (r.1, false)
  ∧ (∀ p, p ≠ getFilepath fm name → r.1 !! p = fs !! p)
  ∧ (if r.2 then True else r.1 = fs)
  ∧ (delete_file fm name (save fm name code fs).1).2 = true.
Proof.
  intros r.
  assert (Hgone : r.1 !! getFilepath fm name = None).
  { unfold r, Files.delete_file.
    destruct (bool_decide _) eqn:Hb; simpl.
    - apply lookup_delete_eq.
    - apply bool_decide_eq_false in Hb.
      by destruct (fs !! getFilepath fm name) as [c|]; [destruct Hb; eexists|]. }
  assert (Hex : file_exists fm name r.1 = false).
  { unfold Files.file_exists. rewrite Hgone.
    apply bool_decide_eq_false_2. by intros [? ?]. }
  split; [unfold r, Files.delete_file, Files.file_exists;
          by destruct (bool_decide _)|].
  split; [done|].
  split; [unfold Files.read; by rewrite Hex|].
  split.
  { unfold Files.delete_file at 1. fold (file_exists fm name r.1).
    by rewrite Hex. }
  split.
  { intros p Hp. unfold r, Files.delete_file.
    destruct (bool_decide _); simpl; [by apply lookup_delete_ne|done]. }
  split.
  { unfold r, Files.delete_file. by destruct (bool_decide _). }
  unfold Files.delete_file, Files.save. simpl.
  rewrite lookup_insert_eq. by rewrite bool_decide_eq_true_2 by by eexists.
Qed.

End ManagerFacts.

(** The normalization on the names of the test file: [test] gets the
    extension, [test.ts] keeps its single one. *)
Example normalizeFilename_examples :
  normalizeFilename scripts "test" = "test.ts"
  ∧ normalizeFilename scripts "test.ts" = "test.ts"
  ∧ getFilepath slash_join scripts "test" = "/srv/scripts/test.ts".
Proof. repeat split. Qed.

End FilesFacts.
